(** * pyespeak: the eSpeak process wrapper

    A shallow embedding of [pyespeak.py]: the construction of the launch
    arguments in [eSpeak.__init__], and the methods [say], [reopen], [close]
    and [terminate] as state-passing programs over the session object and a
    log of the calls made to the [subprocess] library. *)

From Stdlib Require Import String Ascii ZArith List Bool Lia DecimalString.
From Stdlib Require DecimalZ DecimalPos.
Import ListNotations.
Open Scope string_scope.
Open Scope Z_scope.
Open Scope list_scope.

(** ** Module constants *)

Definition ESPEAKCMD : string := "espeak".
Definition VOICEDIR : string := "/usr/share/espeak-data/voices".

(** [str(n)] for a Python int: decimal digits, with a leading minus sign for
    negative numbers. *)
Definition str (n : Z) : string := NilZero.string_of_int (Z.to_int n).

(** ** The keyword arguments of [eSpeak.__init__] *)

(** The [voice] argument. The source tests [voice is not "default"], an
    identity test. CPython interns the literal, so the default argument and
    any literal ["default"] written by a caller are the one object
    [VoiceDefault]; every other str object is a [VoiceStr], whatever its
    characters. *)
Inductive voice_arg : Type :=
| VoiceDefault
| VoiceStr (s : string).

Definition voice_value (v : voice_arg) : string :=
  match v with
  | VoiceDefault => "default"
  | VoiceStr s => s
  end.

Definition is_not_default (v : voice_arg) : bool :=
  match v with
  | VoiceDefault => false
  | VoiceStr _ => true
  end.

(** The [punct] argument: [True], [False] or a str of punctuation characters. *)
Inductive punct_arg : Type :=
| PunctBool (b : bool)
| PunctStr (s : string).

(** Integer arguments are Python ints. The tests [x is not c] of the source
    compare with the constants 100, 1, 0, 50 and 175, which CPython keeps as
    unique objects (the small ints from -5 to 256): on ints the identity test
    is the test [x != c]. [path] is a str or [False] ([None] here). *)
Record config : Type := mkConfig {
  voice : voice_arg;
  amplitude : Z;
  gap : Z;
  capitals : Z;
  linelength : Z;
  pitch : Z;
  speed : Z;
  markup : bool;
  nofinalpause : bool;
  path : option string;
  punct : punct_arg
}.

Definition default_config : config :=
  {| voice := VoiceDefault; amplitude := 100; gap := 1; capitals := 0;
     linelength := 0; pitch := 50; speed := 175; markup := false;
     nofinalpause := false; path := None; punct := PunctBool false |}.

(** Truth value of [path] in [if path:]: [False] and the empty str are false. *)
Definition truthy_path (p : option string) : bool :=
  match p with
  | None => false
  | Some s => negb (String.eqb s "")
  end.

Definition path_str (p : option string) : string :=
  match p with
  | None => ""
  | Some s => s
  end.

Section Arguments.

(** [os.path.exists]: the file system at the time of the call. *)
Variable path_exists : string -> bool.

(** Lines 85 to 111 of [__init__]: the list [args], grown by [+=] under the
    guards of the source, in the order of the source. *)
Definition build_args (c : config) : list string :=
  let args := [ESPEAKCMD] in
  let args :=
    if is_not_default (voice c)
       && path_exists (VOICEDIR ++ "/" ++ voice_value (voice c))%string
    then args ++ ["-v"; voice_value (voice c)] else args in
  let args :=
    if negb (amplitude c =? 100) && (amplitude c >=? 0) && (amplitude c <=? 200)
    then args ++ ["-a"; str (amplitude c)] else args in
  let args :=
    if negb (gap c =? 1) then args ++ ["-g"; str (gap c)] else args in
  let args :=
    if negb (capitals c =? 0) then args ++ ["-k"; str (capitals c)] else args in
  let args :=
    if negb (linelength c =? 0) then args ++ ["-l"; str (linelength c)] else args in
  let args :=
    if negb (pitch c =? 50) && (pitch c <? 100) && (pitch c >=? 0)
    then args ++ ["-p"; str (pitch c)] else args in
  let args :=
    if negb (speed c =? 175) && (speed c >? 79) && (speed c <? 451)
    then args ++ ["-s"; str (speed c)] else args in
  let args := if markup c then args ++ ["-m"] else args in
  let args := if nofinalpause c then args ++ ["-z"] else args in
  let args :=
    if truthy_path (path c)
    then args ++ [("--path=" ++ path_str (path c))%string] else args in
  let args :=
    match punct c with
    | PunctBool true => args ++ ["--punct"]
    | PunctBool false => args
    | PunctStr s => args ++ [("--punct=" ++ s)%string]
    end in
  args.

End Arguments.

(** ** The argument list in the words of the specification *)

(** What one option contributes: its flag entry when the option is set, and
    nothing otherwise. *)
Definition entry (is_set : bool) (e : list string) : list string :=
  if is_set then e else [].

Definition in_range (lo hi x : Z) : bool := (lo <=? x) && (x <=? hi).

Definition punct_entry (p : punct_arg) : list string :=
  match p with
  | PunctBool b => entry b ["--punct"]
  | PunctStr s => [("--punct=" ++ s)%string]
  end.

(** One entry per recognized option, in the documented order voice,
    amplitude, gap, capitals, linelength, pitch, speed, markup, nofinalpause,
    path, punct. An option is set when its value is not the default and lies
    in its valid range; [path_is_set] says when [path] counts as set. *)
Definition documented_entries (path_exists : string -> bool)
    (path_is_set : option string -> bool) (c : config) : list (list string) :=
  [ entry (negb (voice_value (voice c) =? "default")%string
           && path_exists (VOICEDIR ++ "/" ++ voice_value (voice c))%string)
          ["-v"; voice_value (voice c)];
    entry (negb (amplitude c =? 100) && in_range 0 200 (amplitude c))
          ["-a"; str (amplitude c)];
    entry (negb (gap c =? 1)) ["-g"; str (gap c)];
    entry (negb (capitals c =? 0)) ["-k"; str (capitals c)];
    entry (negb (linelength c =? 0)) ["-l"; str (linelength c)];
    entry (negb (pitch c =? 50) && in_range 0 99 (pitch c))
          ["-p"; str (pitch c)];
    entry (negb (speed c =? 175) && in_range 80 450 (speed c))
          ["-s"; str (speed c)];
    entry (markup c) ["-m"];
    entry (nofinalpause c) ["-z"];
    entry (path_is_set (path c)) [("--path=" ++ path_str (path c))%string];
    punct_entry (punct c) ].

Definition spec_args (path_exists : string -> bool)
    (path_is_set : option string -> bool) (c : config) : list string :=
  ESPEAKCMD :: concat (documented_entries path_exists path_is_set c).

(** The entries as the guards of the source select them: as above, but
    [voice] is tested by identity and [path] by its truth value. *)
Definition source_entries (pe : string -> bool) (c : config) : list (list string) :=
  [ entry (is_not_default (voice c)
           && pe (VOICEDIR ++ "/" ++ voice_value (voice c))%string)
          ["-v"; voice_value (voice c)];
    entry (negb (amplitude c =? 100) && in_range 0 200 (amplitude c))
          ["-a"; str (amplitude c)];
    entry (negb (gap c =? 1)) ["-g"; str (gap c)];
    entry (negb (capitals c =? 0)) ["-k"; str (capitals c)];
    entry (negb (linelength c =? 0)) ["-l"; str (linelength c)];
    entry (negb (pitch c =? 50) && in_range 0 99 (pitch c))
          ["-p"; str (pitch c)];
    entry (negb (speed c =? 175) && in_range 80 450 (speed c))
          ["-s"; str (speed c)];
    entry (markup c) ["-m"];
    entry (nofinalpause c) ["-z"];
    entry (truthy_path (path c)) [("--path=" ++ path_str (path c))%string];
    punct_entry (punct c) ].

(** [path] is at its default when it is [False]. *)
Definition path_non_default (p : option string) : bool :=
  match p with
  | None => false
  | Some _ => true
  end.

(** Updates of single options, to compare configurations. *)
Definition with_amplitude (a : Z) (c : config) : config :=
  {| voice := voice c; amplitude := a; gap := gap c; capitals := capitals c;
     linelength := linelength c; pitch := pitch c; speed := speed c;
     markup := markup c; nofinalpause := nofinalpause c; path := path c;
     punct := punct c |}.

Definition with_pitch (p : Z) (c : config) : config :=
  {| voice := voice c; amplitude := amplitude c; gap := gap c;
     capitals := capitals c; linelength := linelength c; pitch := p;
     speed := speed c; markup := markup c; nofinalpause := nofinalpause c;
     path := path c; punct := punct c |}.

Definition with_speed (s : Z) (c : config) : config :=
  {| voice := voice c; amplitude := amplitude c; gap := gap c;
     capitals := capitals c; linelength := linelength c; pitch := pitch c;
     speed := s; markup := markup c; nofinalpause := nofinalpause c;
     path := path c; punct := punct c |}.

Definition with_path (p : option string) (c : config) : config :=
  {| voice := voice c; amplitude := amplitude c; gap := gap c;
     capitals := capitals c; linelength := linelength c; pitch := pitch c;
     speed := speed c; markup := markup c; nofinalpause := nofinalpause c;
     path := p; punct := punct c |}.

(** ** Text: [str.strip] and [bytes(_, "utf-8")] *)

(** Two kinds of strings. A [string] is a str with one byte per character:
    under Python 2 any byte string, under Python 3 text whose characters are
    the code points below 256. Unicode text in general, a str of Python 3 or
    a unicode of Python 2, is the list of its code points. *)

Definition ascii_whitespace (n : N) : bool :=
  ((9 <=? n) && (n <=? 13) || (n =? 32))%N.

Definition unicode_whitespace (n : N) : bool :=
  (ascii_whitespace n || (28 <=? n) && (n <=? 31) || (n =? 133) || (n =? 160))%N.

(** The characters [strip()] removes: the six ASCII white space characters
    for the byte strings of Python 2, the Unicode white space for the text of
    Python 3. *)
Definition isspace (major : Z) (c : ascii) : bool :=
  if major <? 3 then ascii_whitespace (N_of_ascii c)
  else unicode_whitespace (N_of_ascii c).

Fixpoint lstrip (major : Z) (s : string) : string :=
  match s with
  | EmptyString => EmptyString
  | String c s' => if isspace major c then lstrip major s' else s
  end.

Fixpoint rstrip (major : Z) (s : string) : string :=
  match s with
  | EmptyString => EmptyString
  | String c s' =>
      match rstrip major s' with
      | EmptyString => if isspace major c then EmptyString else String c EmptyString
      | r => String c r
      end
  end.

Definition strip (major : Z) (s : string) : string :=
  rstrip major (lstrip major s).

(** UTF-8 of one code point below 256: itself below 128, two bytes above. *)
Definition utf8_char (c : ascii) : string :=
  let n := N_of_ascii c in
  if (n <? 128)%N then String c EmptyString
  else String (ascii_of_N (192 + n / 64))
         (String (ascii_of_N (128 + n mod 64)) EmptyString).

Fixpoint utf8 (s : string) : string :=
  match s with
  | EmptyString => EmptyString
  | String c s' => (utf8_char c ++ utf8 s')%string
  end.

Definition newline : string := String (ascii_of_N 10) EmptyString.

(** Every character of [s] is white space. *)
Fixpoint all_space (major : Z) (s : string) : bool :=
  match s with
  | EmptyString => true
  | String c s' => isspace major c && all_space major s'
  end.

Definition first_char (s : string) : option ascii :=
  match s with
  | EmptyString => None
  | String c _ => Some c
  end.

Fixpoint last_char (s : string) : option ascii :=
  match s with
  | EmptyString => None
  | String c EmptyString => Some c
  | String _ s' => last_char s'
  end.

Definition not_space (major : Z) (o : option ascii) : bool :=
  match o with
  | None => true
  | Some c => negb (isspace major c)
  end.

(** [t] is [s] with its leading and trailing white space removed: [s] is
    [t] between two runs of white space, and [t] neither begins nor ends
    with a white space character. *)
Definition trimmed (major : Z) (s t : string) : Prop :=
  exists l r : string,
    s = (l ++ t ++ r)%string /\
    all_space major l = true /\ all_space major r = true /\
    not_space major (first_char t) = true /\
    not_space major (last_char t) = true.

(** *** Unicode text *)

(** White space of Unicode text: the characters above, and beyond them
    U+1680, U+2000 to U+200A, U+2028, U+2029, U+202F, U+205F and U+3000, as
    in the Unicode tables from version 6.3 on; the older tables of Python 2
    also have U+180E. *)
Definition unicode_space (major : Z) (n : N) : bool :=
  (unicode_whitespace n || (n =? 5760) || (8192 <=? n) && (n <=? 8202)
   || (n =? 8232) || (n =? 8233) || (n =? 8239) || (n =? 8287)
   || (n =? 12288))%N
  || (major <? 3) && (n =? 6158)%N.

Fixpoint lstrip_text (major : Z) (l : list N) : list N :=
  match l with
  | [] => []
  | c :: l' => if unicode_space major c then lstrip_text major l' else l
  end.

Fixpoint rstrip_text (major : Z) (l : list N) : list N :=
  match l with
  | [] => []
  | c :: l' =>
      match rstrip_text major l' with
      | [] => if unicode_space major c then [] else [c]
      | r => c :: r
      end
  end.

Definition strip_text (major : Z) (l : list N) : list N :=
  rstrip_text major (lstrip_text major l).

(** The code points of a [string] read as text. *)
Fixpoint codepoints (s : string) : list N :=
  match s with
  | EmptyString => []
  | String c s' => N_of_ascii c :: codepoints s'
  end.

(** The bytes of a list of byte values. *)
Fixpoint bytes_of (l : list N) : string :=
  match l with
  | [] => EmptyString
  | n :: l' => String (ascii_of_N n) (bytes_of l')
  end.

(** UTF-8 of one code point: one to four bytes; the surrogates U+D800 to
    U+DFFF, and numbers that are no code point, have none. *)
Definition utf8_codepoint (n : N) : option string :=
  (if n <? 128 then Some (bytes_of [n])
   else if n <? 2048 then Some (bytes_of [192 + n / 64; 128 + n mod 64])
   else if (55296 <=? n) && (n <=? 57343) then None
   else if n <? 65536 then
     Some (bytes_of [224 + n / 4096; 128 + (n / 64) mod 64; 128 + n mod 64])
   else if n <? 1114112 then
     Some (bytes_of [240 + n / 262144; 128 + (n / 4096) mod 64;
                     128 + (n / 64) mod 64; 128 + n mod 64])
   else None)%N.

(** The codec "utf-8" on text: [None] when a character cannot be encoded. *)
Fixpoint utf8_encode (l : list N) : option string :=
  match l with
  | [] => Some EmptyString
  | c :: l' =>
      match utf8_codepoint c, utf8_encode l' with
      | Some a, Some b => Some (a ++ b)%string
      | _, _ => None
      end
  end.

(** The codec "ascii" on text. *)
Fixpoint ascii_encode (l : list N) : option string :=
  match l with
  | [] => Some EmptyString
  | c :: l' =>
      match ascii_encode l' with
      | Some b => if (c <? 128)%N then Some (String (ascii_of_N c) b) else None
      | None => None
      end
  end.

Fixpoint last_codepoint (l : list N) : option N :=
  match l with
  | [] => None
  | [c] => Some c
  | _ :: l' => last_codepoint l'
  end.

Definition not_space_text (major : Z) (o : option N) : bool :=
  match o with
  | None => true
  | Some c => negb (unicode_space major c)
  end.

(** [t] is the text [l] with its leading and trailing white space removed. *)
Definition trimmed_text (major : Z) (l t : list N) : Prop :=
  exists a b : list N,
    l = a ++ t ++ b /\
    forallb (unicode_space major) a = true /\
    forallb (unicode_space major) b = true /\
    not_space_text major (hd_error t) = true /\
    not_space_text major (last_codepoint t) = true.

(** ** Exceptions, objects and the [subprocess] library *)

(** The exceptions a method can raise. [eSpeakExceptionClosed] is raised by
    the source only. [ValueError] is the built-in class: the source raises it
    at the end of [say], and so does the library, as a write to a pipe that
    is closed. [UnicodeEncodeError], a subclass of [ValueError], and
    [TypeError] come from the string operations of [say]. [LibraryError] is
    whatever else is raised inside [subprocess] or the pipe objects (OSError,
    IOError, BrokenPipeError, ...), by its class name. *)
Inductive exn : Type :=
| eSpeakExceptionClosed (msg : string)
| ValueError (msg : string)
| LibraryError (name : string)
| UnicodeEncodeError (codec : string)
| TypeError (msg : string).

Inductive result (A : Type) : Type :=
| Return (a : A)
| Raise (e : exn).
Arguments Return {A} a.
Arguments Raise {A} e.

(** [isinstance(e, ValueError)], what [except ValueError] catches. *)
Definition is_value_error (e : exn) : bool :=
  match e with
  | ValueError _ | UnicodeEncodeError _ => true
  | _ => false
  end.

(** The values [say] is tried on. [PyStr] is a str with one byte per
    character and [PyText] is Unicode text: a str under Python 3, a unicode
    under Python 2. The next four are objects with a [read] attribute:
    [read()] returns a str for [PyFile], Unicode text for [PyTextFile] and
    bytes for [PyBinaryFile], and it raises for [PyClosedFile], a stream that
    has been closed. Then an int and [None]. *)
Inductive pyobj : Type :=
| PyStr (s : string)
| PyFile (content : string)
| PyInt (n : Z)
| PyNone
| PyText (cps : list N)
| PyTextFile (cps : list N)
| PyBinaryFile (content : string)
| PyClosedFile.

(** [isinstance(x, str)]: Unicode text is a str from Python 3 on. *)
Definition isinstance_str (major : Z) (x : pyobj) : bool :=
  match x with
  | PyStr _ => true
  | PyText _ => 3 <=? major
  | _ => false
  end.

(** [isinstance(x, basestring)], for Python 2: a str or a unicode. *)
Definition isinstance_basestring (x : pyobj) : bool :=
  match x with
  | PyStr _ | PyText _ => true
  | _ => false
  end.

(** [hasattr(x, 'read')]. *)
Definition hasattr_read (x : pyobj) : bool :=
  match x with
  | PyFile _ | PyTextFile _ | PyBinaryFile _ | PyClosedFile => true
  | _ => false
  end.

(** The string values that the expressions of [say] go through. *)
Inductive strval : Type :=
| SStr (s : string)
| SText (cps : list N)
| SBytes (b : string).

(** The value of an argument that passed the test for a string. *)
Definition value_of (x : pyobj) : strval :=
  match x with
  | PyStr s => SStr s
  | PyText cps => SText cps
  | _ => SStr EmptyString
  end.

(** [x.read()]: all that is left to read of the stream. The bytes of a
    binary stream are a str before Python 3. *)
Definition read (major : Z) (x : pyobj) : result strval :=
  match x with
  | PyFile content => Return (SStr content)
  | PyTextFile cps => Return (SText cps)
  | PyBinaryFile content =>
      Return (if major <? 3 then SStr content else SBytes content)
  | PyClosedFile => Raise (ValueError "I/O operation on closed file.")
  | _ => Raise (LibraryError "AttributeError")
  end.

(** [v.strip()] with the newline str added: bytes and a str cannot be
    added. *)
Definition strip_newline (major : Z) (v : strval) : result strval :=
  match v with
  | SStr s => Return (SStr (strip major s ++ newline)%string)
  | SText cps => Return (SText (strip_text major cps ++ [10%N]))
  | SBytes _ => Raise (TypeError "can't concat str to bytes")
  end.

(** [bytes(v, "utf-8")]. *)
Definition bytes_utf8 (v : strval) : result string :=
  match v with
  | SStr s => Return (utf8 s)
  | SText cps =>
      match utf8_encode cps with
      | Some b => Return b
      | None => Raise (UnicodeEncodeError "utf-8")
      end
  | SBytes _ => Raise (TypeError "encoding without a string argument")
  end.

(** The bytes that [stdin.write(v)] is to write when [v] is passed as it is:
    a unicode goes through the codec "ascii" first. *)
Definition write_argument (v : strval) : result string :=
  match v with
  | SStr s => Return s
  | SText cps =>
      match ascii_encode cps with
      | Some b => Return b
      | None => Raise (UnicodeEncodeError "ascii")
      end
  | SBytes b => Return b
  end.

(** A [Popen] object, named by the number the library gave it. *)
Definition handle : Type := nat.

(** The calls made on a [Popen] object [sp]: [sp.stdin.write(data)],
    [sp.stdin.flush()], [sp.communicate()] and [sp.terminate()]. *)
Inductive pcall : Type :=
| StdinWrite (data : string)
| StdinFlush
| Communicate
| Terminate.

Inductive popen_outcome : Type :=
| Spawned (h : handle)
| SpawnFailed (err : string).

(** The answer to a method call: it returned, it raised [ValueError(msg)],
    or it raised an exception of another class, named [err]. *)
Inductive call_outcome : Type :=
| Done
| Failed (err : string)
| FailedValue (msg : string).

(** What has happened so far between the program and the library. *)
Inductive event : Type :=
| EvPopen (argv : list string) (r : popen_outcome)
| EvCall (h : handle) (c : pcall) (r : call_outcome).

(** The world outside the program: the file system seen by
    [os.path.exists], and the answer of the library to each call, which may
    depend on everything that happened before. Any answer is possible: every
    call may succeed or raise. *)
Record environment : Type := mkEnv {
  path_exists : string -> bool;
  popen : list event -> list string -> popen_outcome;
  method : list event -> handle -> pcall -> call_outcome
}.

(** ** The session object *)

(** The instance attributes of [eSpeak]. *)
Record eSpeak : Type := mkSession {
  args : list string;
  sp : handle;
  open : bool
}.

Record state : Type := mkState {
  self : eSpeak;
  log : list event
}.

(** ** Methods as state-passing programs that may raise *)

Definition M (A : Type) : Type := state -> result A * state.

Definition ret {A : Type} (a : A) : M A := fun st => (Return a, st).

Definition bind {A B : Type} (m : M A) (k : A -> M B) : M B :=
  fun st =>
    match m st with
    | (Return a, st') => k a st'
    | (Raise e, st') => (Raise e, st')
    end.

Definition raise {A : Type} (e : exn) : M A := fun st => (Raise e, st).

(** An expression that touches neither the session nor the library. *)
Definition lift {A : Type} (r : result A) : M A := fun st => (r, st).

Notation "x <- m ;; k" := (bind m (fun x => k))
  (at level 61, m at next level, right associativity).
Notation "m ;; k" := (bind m (fun _ => k))
  (at level 61, right associativity).

(** [try: m except: pass]. *)
Definition try_except_pass (m : M unit) : M unit :=
  fun st =>
    match m st with
    | (Return _, st') => (Return tt, st')
    | (Raise _, st') => (Return tt, st')
    end.

Definition get {A : Type} (field : eSpeak -> A) : M A :=
  fun st => (Return (field (self st)), st).

Definition set_sp (h : handle) : M unit :=
  fun st =>
    (Return tt,
     {| self := {| args := args (self st); sp := h; open := open (self st) |};
        log := log st |}).

Definition set_open (b : bool) : M unit :=
  fun st =>
    (Return tt,
     {| self := {| args := args (self st); sp := sp (self st); open := b |};
        log := log st |}).

(** The operations a caller can apply to a session. *)
Inductive operation : Type :=
| OpSay (something : pyobj)
| OpReopen
| OpClose
| OpTerminate.

Section Session.

Variable E : environment.

(** [sys.version_info[0]]. *)
Variable major : Z.

(** [subprocess.Popen(argv, stdin=PIPE, stdout=PIPE, stderr=PIPE)]. *)
Definition Popen (argv : list string) : M handle :=
  fun st =>
    let r := popen E (log st) argv in
    let st' := {| self := self st; log := log st ++ [EvPopen argv r] |} in
    match r with
    | Spawned h => (Return h, st')
    | SpawnFailed err => (Raise (LibraryError err), st')
    end.

(** A method call on the [Popen] object [h]. *)
Definition call (h : handle) (c : pcall) : M unit :=
  fun st =>
    let r := method E (log st) h c in
    let st' := {| self := self st; log := log st ++ [EvCall h c r] |} in
    match r with
    | Done => (Return tt, st')
    | Failed err => (Raise (LibraryError err), st')
    | FailedValue msg => (Raise (ValueError msg), st')
    end.

(** [eSpeak.__init__]: the argument list is built, the process is spawned
    with it, and the attributes are set. Nothing catches what [Popen]
    raises. *)
Definition init (c : config) (l : list event) : result eSpeak * list event :=
  let a := build_args (path_exists E) c in
  let r := popen E l a in
  let l' := l ++ [EvPopen a r] in
  match r with
  | Spawned h => (Return {| args := a; sp := h; open := true |}, l')
  | SpawnFailed err => (Raise (LibraryError err), l')
  end.

(** [eSpeak.say]. *)
Definition say (something : pyobj) : M unit :=
  is_open <- get open ;;
  if negb is_open then raise (eSpeakExceptionClosed "process already closed.")
  else if (major =? 2) && isinstance_basestring something
          || isinstance_str major something then
    p <- get sp ;;
    if major =? 3 then
      v <- lift (strip_newline major (value_of something)) ;;
      data <- lift (bytes_utf8 v) ;;
      call p (StdinWrite data) ;;
      call p StdinFlush
    else
      v <- lift (strip_newline major (value_of something)) ;;
      data <- lift (write_argument v) ;;
      call p (StdinWrite data) ;;
      call p StdinFlush
  else if hasattr_read something then
    p <- get sp ;;
    if major =? 3 then
      r <- lift (read major something) ;;
      v <- lift (strip_newline major r) ;;
      data <- lift (bytes_utf8 v) ;;
      call p (StdinWrite data) ;;
      call p StdinFlush
    else
      r <- lift (read major something) ;;
      v <- lift (strip_newline major r) ;;
      data <- lift (write_argument v) ;;
      call p (StdinWrite data) ;;
      call p StdinFlush
  else raise (ValueError "I don't know what this is.").

(** The body of the [try] of [reopen] and [close]. *)
Definition wait_and_terminate : M unit :=
  p <- get sp ;;
  call p Communicate ;;
  p' <- get sp ;;
  call p' Terminate.

(** [eSpeak.reopen]. *)
Definition reopen : M unit :=
  try_except_pass wait_and_terminate ;;
  a <- get args ;;
  h <- Popen a ;;
  set_sp h ;;
  set_open true.

(** [eSpeak.close]. *)
Definition close : M unit :=
  try_except_pass wait_and_terminate ;;
  set_open false.

(** [eSpeak.terminate]. *)
Definition terminate : M unit :=
  try_except_pass (p <- get sp ;; call p Terminate) ;;
  set_open false.


Definition exec (o : operation) : M unit :=
  match o with
  | OpSay x => say x
  | OpReopen => reopen
  | OpClose => close
  | OpTerminate => terminate
  end.

(** A caller applying operations one after the other, going on after an
    operation that raised. *)
Fixpoint run (ops : list operation) (st : state) : state :=
  match ops with
  | [] => st
  | o :: ops' => run ops' (snd (exec o st))
  end.

End Session.

(** The events of [l'] that come after its prefix [l]. *)
Definition new_events (l l' : list event) : list event :=
  skipn (length l) l'.

(** The argument lists of the [Popen] calls among some events. *)
Fixpoint spawned_with (evs : list event) : list (list string) :=
  match evs with
  | [] => []
  | EvPopen argv _ :: evs' => argv :: spawned_with evs'
  | EvCall _ _ _ :: evs' => spawned_with evs'
  end.

(** ** Environments to run the programs in *)

(** Every call succeeds; the n-th event creates process n. No voice file
    exists. *)
Definition obliging : environment :=
  {| path_exists := fun _ => false;
     popen := fun l _ => Spawned (length l);
     method := fun _ _ _ => Done |}.

(** The program cannot be started and every call on a process fails. *)
Definition hostile : environment :=
  {| path_exists := fun _ => false;
     popen := fun _ _ => SpawnFailed "OSError";
     method := fun _ _ _ => Failed "OSError" |}.

(** A session as [__init__] leaves it in [obliging], and the same session
    once closed. *)
Definition fresh_session : state :=
  {| self := {| args := ["espeak"]; sp := 0%nat; open := true |};
     log := [EvPopen ["espeak"] (Spawned 0%nat)] |}.

Definition closed_session : state :=
  {| self := {| args := ["espeak"]; sp := 0%nat; open := false |};
     log := [EvPopen ["espeak"] (Spawned 0%nat);
             EvCall 0%nat Communicate Done; EvCall 0%nat Terminate Done] |}.

(** Every voice file exists. *)
Definition all_voices : string -> bool := fun _ => true.
Definition no_voices : string -> bool := fun _ => false.

(** The calls of the wait-and-terminate sequence on the process [h] after
    the events [l], with the answers of the library: [communicate()], and
    then [terminate()] when [communicate()] returned. *)
Definition teardown_events (E : environment) (h : handle) (l : list event)
    : list event :=
  match method E l h Communicate with
  | Done =>
      [EvCall h Communicate Done;
       EvCall h Terminate (method E (l ++ [EvCall h Communicate Done]) h Terminate)]
  | Failed err => [EvCall h Communicate (Failed err)]
  | FailedValue msg => [EvCall h Communicate (FailedValue msg)]
  end.

(** What is transmitted for the text [t]: [t] and a newline, as the bytes
    the interpreter writes for it. *)
Definition transmitted (major : Z) (t : string) : string :=
  if major =? 3 then utf8 (t ++ newline)%string else (t ++ newline)%string.

(** The outcome of a method whose last library call answered [r]. *)
Definition outcome_of (r : call_outcome) : result unit :=
  match r with
  | Done => Return tt
  | Failed err => Raise (LibraryError err)
  | FailedValue msg => Raise (ValueError msg)
  end.

(** Every character of [s] is an ASCII character. *)
Fixpoint is_ascii (s : string) : bool :=
  match s with
  | EmptyString => true
  | String c s' => (N_of_ascii c <? 128)%N && is_ascii s'
  end.

(** The argument is neither a str nor an object that can be read. *)
Definition unsupported (major : Z) (x : pyobj) : bool :=
  negb ((major =? 2) && isinstance_basestring x || isinstance_str major x)
  && negb (hasattr_read x).

(** The codec through which [say] sends Unicode text: "utf-8" by the call of
    [bytes] under Python 3, "ascii" inside [write] otherwise. *)
Definition codec (major : Z) : string :=
  if major =? 3 then "utf-8" else "ascii".

Definition encode_text (major : Z) (l : list N) : option string :=
  if major =? 3 then utf8_encode l else ascii_encode l.

(** The bytes [say] has to write for a string value, or the exception that
    computing them raises. *)
Definition encoded (major : Z) (v : strval) : result string :=
  match strip_newline major v with
  | Return v' => if major =? 3 then bytes_utf8 v' else write_argument v'
  | Raise e => Raise e
  end.

(** The same for an argument that is a string or can be read. *)
Definition payload (major : Z) (x : pyobj) : result string :=
  if (major =? 2) && isinstance_basestring x || isinstance_str major x
  then encoded major (value_of x)
  else
    match read major x with
    | Return v => encoded major v
    | Raise e => Raise e
    end.

(** One write of [data] on the process of the session and, when the write
    returned, one flush: the result and the state after them. *)
Definition write_then_flush (E : environment) (st : state) (data : string)
    : result unit * state :=
  let p := sp (self st) in
  let w := method E (log st) p (StdinWrite data) in
  match w with
  | Done =>
      let f := method E (log st ++ [EvCall p (StdinWrite data) Done]) p StdinFlush in
      (outcome_of f,
       {| self := self st;
          log := log st ++ [EvCall p (StdinWrite data) Done; EvCall p StdinFlush f] |})
  | _ =>
      (outcome_of w,
       {| self := self st; log := log st ++ [EvCall p (StdinWrite data) w] |})
  end.


(** The exception [e] of [say x] comes from a step [say] performs on its
    argument: from reading it, stripping it or encoding it, or from the
    write or the flush, which answered with it. *)
Definition raised_in_step (E : environment) (major : Z) (st : state)
    (x : pyobj) (e : exn) : Prop :=
  payload major x = Raise e \/
  exists (h : handle) (c : pcall) (r : call_outcome),
    outcome_of r = Raise e /\
    In (EvCall h c r) (new_events (log st) (log (snd (say E major x st)))).

(** Whether [communicate()] has been called on the process [h]. *)
Definition waited_for (h : handle) (l : list event) : bool :=
  existsb (fun ev => match ev with
                     | EvCall h' Communicate _ => Nat.eqb h h'
                     | _ => false
                     end) l.

(** The first spawn succeeds and no later one does; a write or a flush on a
    process on which [communicate()] has been called raises the [ValueError]
    of a closed file. *)
Definition no_respawn : environment :=
  {| path_exists := fun _ => false;
     popen := fun l _ => match l with
                         | [] => Spawned 0%nat
                         | _ => SpawnFailed "OSError"
                         end;
     method := fun l h c =>
                 match c with
                 | StdinWrite _ | StdinFlush =>
                     if waited_for h l then FailedValue "write to closed file"
                     else Done
                 | _ => Done
                 end |}.

(** ** Definitions for the further properties *)

Definition with_voice (v : voice_arg) (c : config) : config :=
  {| voice := v; amplitude := amplitude c; gap := gap c;
     capitals := capitals c; linelength := linelength c; pitch := pitch c;
     speed := speed c; markup := markup c; nofinalpause := nofinalpause c;
     path := path c; punct := punct c |}.

Definition with_gap (g : Z) (c : config) : config :=
  {| voice := voice c; amplitude := amplitude c; gap := g;
     capitals := capitals c; linelength := linelength c; pitch := pitch c;
     speed := speed c; markup := markup c; nofinalpause := nofinalpause c;
     path := path c; punct := punct c |}.

Definition with_capitals (k : Z) (c : config) : config :=
  {| voice := voice c; amplitude := amplitude c; gap := gap c;
     capitals := k; linelength := linelength c; pitch := pitch c;
     speed := speed c; markup := markup c; nofinalpause := nofinalpause c;
     path := path c; punct := punct c |}.

Definition with_linelength (n : Z) (c : config) : config :=
  {| voice := voice c; amplitude := amplitude c; gap := gap c;
     capitals := capitals c; linelength := n; pitch := pitch c;
     speed := speed c; markup := markup c; nofinalpause := nofinalpause c;
     path := path c; punct := punct c |}.

(** The file [os.path.exists] is asked about for the voice of [c]. *)
Definition voice_file (c : config) : string :=
  (VOICEDIR ++ "/" ++ voice_value (voice c))%string.

(** [int(s)] on a decimal numeral. *)
Definition parse_int (s : string) : option Z :=
  option_map Z.of_int (NilZero.int_of_string s).

(** The process a session refers to after some events, when it referred to
    [cur] before them: the one of the last [Popen] call that returned. *)
Fixpoint last_spawned (cur : handle) (evs : list event) : handle :=
  match evs with
  | [] => cur
  | EvPopen _ (Spawned h) :: evs' => last_spawned h evs'
  | EvPopen _ (SpawnFailed _) :: evs' => last_spawned cur evs'
  | EvCall _ _ _ :: evs' => last_spawned cur evs'
  end.

(** Every method call among the events is made on the process spawned last
    before it, [cur] at the start. *)
Fixpoint targets_current (cur : handle) (evs : list event) : bool :=
  match evs with
  | [] => true
  | EvPopen _ (Spawned h) :: evs' => targets_current h evs'
  | EvPopen _ (SpawnFailed _) :: evs' => targets_current cur evs'
  | EvCall h _ _ :: evs' => Nat.eqb h cur && targets_current cur evs'
  end.

Fixpoint count_reopen (ops : list operation) : nat :=
  match ops with
  | [] => 0%nat
  | OpReopen :: ops' => S (count_reopen ops')
  | _ :: ops' => count_reopen ops'
  end.

(** The state with the [open] attribute set to [b]. *)
Definition with_open (b : bool) (st : state) : state :=
  {| self := {| args := args (self st); sp := sp (self st); open := b |};
     log := log st |}.

(** The two interpreters agree on which characters of [s] are white space. *)
Fixpoint same_space (s : string) : bool :=
  match s with
  | EmptyString => true
  | String c s' => Bool.eqb (isspace 2 c) (isspace 3 c) && same_space s'
  end.

(** The data of the [write] calls among some events, in order. *)
Fixpoint written (evs : list event) : list string :=
  match evs with
  | [] => []
  | EvCall _ (StdinWrite data) _ :: evs' => data :: written evs'
  | _ :: evs' => written evs'
  end.

(** * Properties *)

(** ** The argument list *)

Lemma if_app_entry (b : bool) (a e : list string) :
  (if b then a ++ e else a) = a ++ entry b e.
Proof. destruct b; simpl; [reflexivity | now rewrite app_nil_r]. Qed.

Lemma amplitude_guard (a : Z) :
  negb (a =? 100) && (a >=? 0) && (a <=? 200)
  = negb (a =? 100) && in_range 0 200 a.
Proof. unfold in_range. rewrite Z.geb_leb, andb_assoc. reflexivity. Qed.

Lemma pitch_guard (p : Z) :
  negb (p =? 50) && (p <? 100) && (p >=? 0)
  = negb (p =? 50) && in_range 0 99 p.
Proof.
  unfold in_range. rewrite Z.geb_leb, <- andb_assoc. f_equal.
  destruct (Z.ltb_spec p 100), (Z.leb_spec 0 p), (Z.leb_spec p 99);
    simpl; try reflexivity; lia.
Qed.

Lemma speed_guard (s : Z) :
  negb (s =? 175) && (s >? 79) && (s <? 451)
  = negb (s =? 175) && in_range 80 450 s.
Proof.
  unfold in_range. rewrite Z.gtb_ltb, <- andb_assoc. f_equal.
  destruct (Z.ltb_spec 79 s), (Z.ltb_spec s 451), (Z.leb_spec 80 s),
    (Z.leb_spec s 450); simpl; try reflexivity; lia.
Qed.

Lemma build_args_entries (pe : string -> bool) (c : config) :
  build_args pe c = ESPEAKCMD :: concat (source_entries pe c).
Proof.
  unfold build_args, source_entries. cbv zeta.
  rewrite amplitude_guard, pitch_guard, speed_guard.
  rewrite !if_app_entry.
  assert (Hp : forall a : list string,
             match punct c with
             | PunctBool true => a ++ ["--punct"]
             | PunctBool false => a
             | PunctStr s => a ++ [("--punct=" ++ s)%string]
             end = a ++ punct_entry (punct c)).
  { intros a. destruct (punct c) as [[|]|s]; simpl;
      [reflexivity | now rewrite app_nil_r | reflexivity]. }
  rewrite Hp. cbn [concat]. rewrite app_nil_r.
  rewrite <- !app_assoc. reflexivity.
Qed.

Lemma voice_guard (pe : string -> bool) (v : voice_arg) :
  v <> VoiceStr "default" ->
  is_not_default v && pe (VOICEDIR ++ "/" ++ voice_value v)%string
  = negb (voice_value v =? "default")%string
    && pe (VOICEDIR ++ "/" ++ voice_value v)%string.
Proof.
  intros Hv. destruct v as [|s]; simpl; [reflexivity|].
  destruct (String.eqb_spec s "default") as [->|_]; [now elim Hv | reflexivity].
Qed.

(** C1, as amended. For every configuration whose voice is not a run-time
    copy of the str "default", the argument list built by [__init__] is the
    program name followed by exactly one entry per recognized option, in the
    order voice, amplitude, gap, capitals, linelength, pitch, speed, markup,
    nofinalpause, path, punct: the flag (with its value) for an option whose
    value is non-default and in range, nothing for an option at its default,
    where [path] counts as set when it is a non-empty str. *)
Theorem build_args_documented (pe : string -> bool) (c : config) :
  voice c <> VoiceStr "default" ->
  build_args pe c = spec_args pe truthy_path c.
Proof.
  intros Hv. rewrite build_args_entries.
  unfold spec_args, source_entries, documented_entries.
  rewrite (voice_guard pe _ Hv). reflexivity.
Qed.

(** C1 fails as stated: with [path] set to the empty str, a value that is
    not the default [False], the list has no [--path=] entry. *)
Lemma build_args_empty_path_omitted :
  build_args no_voices (with_path (Some "") default_config)
  <> spec_args no_voices path_non_default (with_path (Some "") default_config).
Proof. vm_compute. discriminate. Qed.

Section OutOfRange.

Variable pe : string -> bool.
Variable c : config.







End OutOfRange.




(** The values named by the specification. *)
Example amplitude_300 :
  build_args no_voices (with_amplitude 300 default_config) = ["espeak"].
Proof. reflexivity. Qed.

Example pitch_150 :
  build_args no_voices (with_pitch 150 default_config) = ["espeak"].
Proof. reflexivity. Qed.

Example speed_1000 :
  build_args no_voices (with_speed 1000 default_config) = ["espeak"].
Proof. reflexivity. Qed.

Example speed_50 :
  build_args no_voices (with_speed 50 default_config) = ["espeak"].
Proof. reflexivity. Qed.

Example speed_200 :
  build_args no_voices (with_speed 200 default_config) = ["espeak"; "-s"; "200"].
Proof. reflexivity. Qed.

Example punct_true :
  build_args no_voices
    (mkConfig VoiceDefault 100 1 0 0 50 175 false false None (PunctBool true))
  = ["espeak"; "--punct"].
Proof. reflexivity. Qed.

Example punct_chars :
  build_args no_voices
    (mkConfig VoiceDefault 100 1 0 0 50 175 false false None (PunctStr "!.?"))
  = ["espeak"; "--punct=!.?"].
Proof. reflexivity. Qed.

Example every_option_set :
  build_args all_voices
    (mkConfig (VoiceStr "de") 120 2 1 40 60 200 true true (Some "/opt")
       (PunctStr ",;"))
  = ["espeak"; "-v"; "de"; "-a"; "120"; "-g"; "2"; "-k"; "1"; "-l"; "40";
     "-p"; "60"; "-s"; "200"; "-m"; "-z"; "--path=/opt"; "--punct=,;"].
Proof. reflexivity. Qed.

(** The identity test on [voice]: a str with the characters of "default"
    that is not the interned literal passes the first guard, and gets its
    flag when a voice file of that name exists. *)
Example voice_copy_of_default :
  build_args all_voices
    (mkConfig (VoiceStr "default") 100 1 0 0 50 175 false false None
       (PunctBool false))
  = ["espeak"; "-v"; "default"].
Proof. reflexivity. Qed.

Example empty_path :
  build_args no_voices (with_path (Some "") default_config) = ["espeak"] /\
  spec_args no_voices path_non_default (with_path (Some "") default_config)
  = ["espeak"; "--path="].
Proof. split; reflexivity. Qed.

Example negative_gap :
  build_args no_voices
    (mkConfig VoiceDefault 100 (-3) 0 0 50 175 false false None (PunctBool false))
  = ["espeak"; "-g"; "-3"].
Proof. reflexivity. Qed.

(** ** Text *)

Section Strip.

Variable major : Z.

Lemma lstrip_spec (s : string) :
  exists l : string,
    s = (l ++ lstrip major s)%string /\
    all_space major l = true /\
    not_space major (first_char (lstrip major s)) = true.
Proof.
  induction s as [|c s IH]; simpl.
  - exists EmptyString. auto.
  - destruct (isspace major c) eqn:Hc.
    + destruct IH as (l & Hs & Hl & Hf).
      exists (String c l). simpl. rewrite Hc, Hl, <- Hs. auto.
    + exists EmptyString. simpl. rewrite Hc. auto.
Qed.

Lemma rstrip_spec (s : string) :
  exists r : string,
    s = (rstrip major s ++ r)%string /\
    all_space major r = true /\
    not_space major (last_char (rstrip major s)) = true.
Proof.
  induction s as [|c s IH]; simpl.
  - exists EmptyString. auto.
  - destruct IH as (r & Hs & Hr & Hl).
    destruct (rstrip major s) as [|d t] eqn:Ht.
    + simpl in Hs. subst r. destruct (isspace major c) eqn:Hc.
      * exists (String c s). simpl. rewrite Hc, Hr. auto.
      * exists s. simpl. rewrite Hc. auto.
    + exists r. simpl in *. rewrite <- Hs. auto.
Qed.

Lemma rstrip_first_char (s : string) :
  not_space major (first_char s) = true ->
  not_space major (first_char (rstrip major s)) = true.
Proof.
  destruct s as [|c s]; simpl; [auto|].
  intros Hc. destruct (rstrip major s); simpl; [|exact Hc].
  apply negb_true_iff in Hc. rewrite Hc. simpl. now rewrite Hc.
Qed.

(** [strip] removes the leading and the trailing white space and nothing
    else. *)
Lemma strip_trimmed (s : string) : trimmed major s (strip major s).
Proof.
  unfold strip, trimmed.
  destruct (lstrip_spec s) as (l & Hs & Hl & Hf).
  destruct (rstrip_spec (lstrip major s)) as (r & Hs' & Hr & Hlast).
  exists l, r. repeat split; auto.
  - now rewrite <- Hs'.
  - now apply rstrip_first_char.
Qed.

End Strip.

Example strip_hello_py3 :
  strip 3 "  hello world  " = "hello world" /\
  utf8 (strip 3 "  hello world  " ++ newline) = ("hello world" ++ newline)%string.
Proof. split; reflexivity. Qed.

Example strip_hello_py2 :
  (strip 2 "  hello world  " ++ newline)%string = ("hello world" ++ newline)%string.
Proof. reflexivity. Qed.

Section StripUnique.

Variable major : Z.

Lemma lstrip_app_space (l u : string) :
  all_space major l = true -> lstrip major (l ++ u) = lstrip major u.
Proof.
  induction l as [|c l IH]; simpl; [reflexivity|].
  intros H. apply andb_true_iff in H. destruct H as [Hc Hl].
  rewrite Hc. auto.
Qed.

Lemma lstrip_all_space (r : string) :
  all_space major r = true -> lstrip major r = EmptyString.
Proof.
  induction r as [|c r IH]; simpl; [reflexivity|].
  intros H. apply andb_true_iff in H. destruct H as [Hc Hr].
  rewrite Hc. auto.
Qed.

Lemma lstrip_fixed (u : string) :
  not_space major (first_char u) = true -> lstrip major u = u.
Proof.
  destruct u as [|c u]; simpl; [reflexivity|].
  intros H. apply negb_true_iff in H. now rewrite H.
Qed.

Lemma rstrip_all_space (r : string) :
  all_space major r = true -> rstrip major r = EmptyString.
Proof.
  induction r as [|c r IH]; simpl; [reflexivity|].
  intros H. apply andb_true_iff in H. destruct H as [Hc Hr].
  rewrite (IH Hr), Hc. reflexivity.
Qed.

Lemma rstrip_app_space (t r : string) :
  all_space major r = true -> rstrip major (t ++ r) = rstrip major t.
Proof.
  intros Hr. induction t as [|c t IH]; simpl.
  - now apply rstrip_all_space.
  - now rewrite IH.
Qed.

Lemma rstrip_fixed (t : string) :
  not_space major (last_char t) = true -> rstrip major t = t.
Proof.
  induction t as [|c t IH]; [reflexivity|].
  destruct t as [|d t].
  - simpl. intros H. apply negb_true_iff in H. now rewrite H.
  - intros H. change (last_char (String c (String d t)))
      with (last_char (String d t)) in H.
    specialize (IH H).
    change (rstrip major (String c (String d t)))
      with (match rstrip major (String d t) with
            | EmptyString =>
                if isspace major c then EmptyString else String c EmptyString
            | r => String c r
            end).
    rewrite IH. reflexivity.
Qed.

(** The trimmed text is unique: it is what [strip] computes. *)
Lemma trimmed_strip (s t : string) :
  trimmed major s t -> t = strip major s.
Proof.
  intros (l & r & -> & Hl & Hr & Hf & Hlast). unfold strip.
  rewrite (lstrip_app_space l _ Hl).
  destruct t as [|c t].
  - simpl. now rewrite (lstrip_all_space r Hr).
  - rewrite lstrip_fixed by (simpl; exact Hf).
    rewrite (rstrip_app_space _ r Hr). symmetry. now apply rstrip_fixed.
Qed.

End StripUnique.

Lemma utf8_ascii (s : string) : is_ascii s = true -> utf8 s = s.
Proof.
  induction s as [|c s IH]; simpl; [reflexivity|].
  intros H. apply andb_true_iff in H. destruct H as [Hc Hs].
  unfold utf8_char. rewrite Hc. simpl. now rewrite IH.
Qed.

Lemma is_ascii_app (a b : string) :
  is_ascii (a ++ b) = is_ascii a && is_ascii b.
Proof.
  induction a as [|c a IH]; simpl; [reflexivity|].
  now rewrite IH, andb_assoc.
Qed.

Lemma trimmed_ascii (major : Z) (s t : string) :
  trimmed major s t -> is_ascii s = true -> is_ascii t = true.
Proof.
  intros (l & r & -> & _) H. rewrite !is_ascii_app in H.
  apply andb_true_iff in H. destruct H as [_ H].
  apply andb_true_iff in H. now destruct H.
Qed.

Lemma transmitted_ascii (major : Z) (t : string) :
  is_ascii t = true -> transmitted major t = (t ++ newline)%string.
Proof.
  intros H. unfold transmitted. destruct (major =? 3); [|reflexivity].
  apply utf8_ascii. rewrite is_ascii_app, H. reflexivity.
Qed.

(** ** Unicode text *)

Section StripText.

Variable major : Z.


Lemma lstrip_text_spec (l : list N) :
  exists a : list N,
    l = a ++ lstrip_text major l /\
    forallb (unicode_space major) a = true /\
    not_space_text major (hd_error (lstrip_text major l)) = true.
Proof.
  induction l as [|c l IH]; simpl.
  - exists []. auto.
  - destruct (unicode_space major c) eqn:Hc.
    + destruct IH as (a & Hl & Ha & Hf).
      exists (c :: a). simpl. rewrite Hc, Ha, <- Hl. auto.
    + exists []. simpl. rewrite Hc. auto.
Qed.

Lemma rstrip_text_spec (l : list N) :
  exists b : list N,
    l = rstrip_text major l ++ b /\
    forallb (unicode_space major) b = true /\
    not_space_text major (last_codepoint (rstrip_text major l)) = true.
Proof.
  induction l as [|c l IH]; simpl.
  - exists []. auto.
  - destruct IH as (b & Hl & Hb & Hlast).
    destruct (rstrip_text major l) as [|d t] eqn:Ht.
    + simpl in Hl. subst b. destruct (unicode_space major c) eqn:Hc.
      * exists (c :: l). simpl. rewrite Hc, Hb. auto.
      * exists l. simpl. rewrite Hc. auto.
    + exists b. simpl in *. rewrite <- Hl. auto.
Qed.

Lemma rstrip_text_first (l : list N) :
  not_space_text major (hd_error l) = true ->
  not_space_text major (hd_error (rstrip_text major l)) = true.
Proof.
  destruct l as [|c l]; simpl; [auto|].
  intros Hc. destruct (rstrip_text major l); simpl; [|exact Hc].
  apply negb_true_iff in Hc. rewrite Hc. simpl. now rewrite Hc.
Qed.

(** [strip_text] removes the leading and the trailing white space and
    nothing else. *)
Lemma strip_text_trimmed (l : list N) : trimmed_text major l (strip_text major l).
Proof.
  unfold strip_text, trimmed_text.
  destruct (lstrip_text_spec l) as (a & Hl & Ha & Hf).
  destruct (rstrip_text_spec (lstrip_text major l)) as (b & Hl' & Hb & Hlast).
  exists a, b. repeat split; auto.
  - now rewrite <- Hl'.
  - now apply rstrip_text_first.
Qed.








End StripText.

(** ** The session *)

Lemma new_events_app (l evs : list event) : new_events l (l ++ evs) = evs.
Proof.
  unfold new_events. rewrite skipn_app, Nat.sub_diag, skipn_all. reflexivity.
Qed.

Lemma call_eq (E : environment) (h : handle) (c : pcall) (st : state) :
  call E h c st
  = (outcome_of (method E (log st) h c),
     {| self := self st;
        log := log st ++ [EvCall h c (method E (log st) h c)] |}).
Proof. unfold call. destruct (method E (log st) h c); reflexivity. Qed.

Lemma bind_get {A B : Type} (field : eSpeak -> A) (k : A -> M B) (st : state) :
  bind (get field) k st = k (field (self st)) st.
Proof. reflexivity. Qed.

Lemma bind_lift {A B : Type} (r : result A) (k : A -> M B) (st : state) :
  bind (lift r) k st
  = match r with
    | Return a => k a st
    | Raise e => (Raise e, st)
    end.
Proof. unfold bind, lift. destruct r; reflexivity. Qed.

(** The write and the flush that end each branch of [say]. *)
Lemma send_eq (E : environment) (st : state) (data : string) :
  bind (call E (sp (self st)) (StdinWrite data))
       (fun _ => call E (sp (self st)) StdinFlush) st
  = write_then_flush E st data.
Proof.
  unfold bind, write_then_flush. rewrite call_eq. cbv zeta.
  destruct (method E (log st) (sp (self st)) (StdinWrite data));
    cbn [outcome_of]; try reflexivity.
  rewrite call_eq. cbn [self log]. rewrite <- app_assoc. reflexivity.
Qed.

(** [say] on an open session, for an argument that passes one of its two
    tests: the bytes are computed, which may raise, and then sent. *)
Lemma say_open (E : environment) (major : Z) (st : state) (x : pyobj) :
  open (self st) = true ->
  unsupported major x = false ->
  say E major x st
  = match payload major x with
    | Return data => write_then_flush E st data
    | Raise e => (Raise e, st)
    end.
Proof.
  intros Hopen Hsup. unfold say. rewrite bind_get, Hopen. cbn [negb].
  unfold unsupported in Hsup. unfold payload, encoded.
  destruct ((major =? 2) && isinstance_basestring x || isinstance_str major x)
    eqn:Htext.
  - rewrite bind_get. destruct (major =? 3);
      rewrite bind_lift; destruct (strip_newline major (value_of x));
      try reflexivity; rewrite bind_lift;
      match goal with
      | |- context [match ?r with Return _ => _ | Raise _ => _ end] =>
          destruct r; try reflexivity
      end; apply send_eq.
  - cbn [negb andb] in Hsup. apply negb_false_iff in Hsup. rewrite Hsup.
    rewrite bind_get. destruct (major =? 3);
      rewrite bind_lift; destruct (read major x); try reflexivity;
      rewrite bind_lift; destruct (strip_newline major _);
      try reflexivity; rewrite bind_lift;
      match goal with
      | |- context [match ?r with Return _ => _ | Raise _ => _ end] =>
          destruct r; try reflexivity
      end; apply send_eq.
Qed.

(** What [say] does with the content [content] of a str or of a stream of
    str on an open session: one [write] of the stripped content and a
    newline, and one [flush] when the write returned. *)
Lemma say_content (E : environment) (major : Z) (st : state) (x : pyobj)
    (content : string) :
  open (self st) = true ->
  x = PyStr content \/ x = PyFile content ->
  say E major x st
  = write_then_flush E st (transmitted major (strip major content)).
Proof.
  intros Hopen Hx.
  assert (Hsup : unsupported major x = false).
  { destruct Hx as [-> | ->]; unfold unsupported; simpl;
      rewrite ?orb_true_r, ?andb_false_r; reflexivity. }
  rewrite (say_open E major st x Hopen Hsup).
  assert (Hp : payload major x = Return (transmitted major (strip major content))).
  { unfold payload, encoded, transmitted.
    destruct Hx as [-> | ->]; simpl; rewrite ?orb_true_r, ?andb_false_r; simpl;
      destruct (major =? 3); reflexivity. }
  now rewrite Hp.
Qed.

(** The first test of [say]: a closed session raises before anything else
    is looked at. *)
Lemma say_on_closed (E : environment) (major : Z) (st : state) (x : pyobj) :
  open (self st) = false ->
  say E major x st = (Raise (eSpeakExceptionClosed "process already closed."), st).
Proof.
  intros Hclosed. unfold say. rewrite bind_get, Hclosed. reflexivity.
Qed.

(** The last branch of [say]. *)
Lemma say_rejects (E : environment) (major : Z) (st : state) (x : pyobj) :
  open (self st) = true -> unsupported major x = true ->
  say E major x st = (Raise (ValueError "I don't know what this is."), st).
Proof.
  intros Hopen Hx. unfold say. rewrite bind_get, Hopen. cbn [negb].
  unfold unsupported in Hx. apply andb_true_iff in Hx. destruct Hx as [H1 H2].
  apply negb_true_iff in H1. apply negb_true_iff in H2.
  rewrite H1, H2. reflexivity.
Qed.

(** What the write and the flush leave behind, whatever the answers. *)
Lemma write_then_flush_effect (E : environment) (st : state) (data : string) :
  exists evs : list event,
    snd (write_then_flush E st data)
      = {| self := self st; log := log st ++ evs |} /\
    spawned_with evs = [] /\
    written evs = [data] /\
    targets_current (sp (self st)) evs = true /\
    last_spawned (sp (self st)) evs = sp (self st) /\
    hd_error evs
      = Some (EvCall (sp (self st)) (StdinWrite data)
                (method E (log st) (sp (self st)) (StdinWrite data))).
Proof.
  unfold write_then_flush. cbv zeta.
  destruct (method E (log st) (sp (self st)) (StdinWrite data)) eqn:Hw;
    eexists; cbn [snd]; (split; [reflexivity|]); simpl;
    rewrite ?Nat.eqb_refl; repeat split; reflexivity.
Qed.

(** What one call of [say] leaves behind: the attributes as they were, and
    in the log at most a write and a flush on the process of the session. *)
Lemma say_effect (E : environment) (major : Z) (st : state) (x : pyobj) :
  exists evs : list event,
    snd (say E major x st) = {| self := self st; log := log st ++ evs |} /\
    spawned_with evs = [] /\
    targets_current (sp (self st)) evs = true /\
    last_spawned (sp (self st)) evs = sp (self st) /\
    (open (self st) = false -> evs = []).
Proof.
  assert (Hidle : forall r : result unit,
            say E major x st = (r, st) ->
            exists evs : list event,
              snd (say E major x st)
                = {| self := self st; log := log st ++ evs |} /\
              spawned_with evs = [] /\
              targets_current (sp (self st)) evs = true /\
              last_spawned (sp (self st)) evs = sp (self st) /\
              (open (self st) = false -> evs = [])).
  { intros r ->. exists []. cbn [snd]. rewrite app_nil_r.
    destruct st as [s l]. repeat split; reflexivity. }
  destruct (open (self st)) eqn:Hopen.
  - destruct (unsupported major x) eqn:Hsup.
    + eapply Hidle. now apply say_rejects.
    + pose proof (say_open E major st x Hopen Hsup) as Hsay.
      destruct (payload major x) as [data|e].
      * destruct (write_then_flush_effect E st data)
          as (evs & Hs & Hsp & _ & Ht & Hl & _).
        exists evs. rewrite Hsay, Hs. repeat split; auto. discriminate.
      * eapply Hidle. exact Hsay.
  - eapply Hidle. now apply say_on_closed.
Qed.

Lemma readable_supported (major : Z) (x : pyobj) :
  hasattr_read x = true -> unsupported major x = false.
Proof. intros H. unfold unsupported. rewrite H. apply andb_false_r. Qed.

(** What [say] has to write for Unicode text. *)
Lemma payload_text (major : Z) (x : pyobj) (cps : list N) :
  x = PyText cps \/ x = PyTextFile cps ->
  unsupported major x = false ->
  payload major x
  = match encode_text major (strip_text major cps ++ [10%N]) with
    | Some data => Return data
    | None => Raise (UnicodeEncodeError (codec major))
    end.
Proof.
  intros Hx Hsup. unfold payload, encoded, encode_text, codec.
  destruct Hx as [-> | ->].
  - unfold unsupported in Hsup. cbn [hasattr_read negb andb] in Hsup.
    rewrite andb_true_r in Hsup. apply negb_false_iff in Hsup.
    rewrite Hsup. cbn [value_of strip_newline].
    destruct (major =? 3); cbn [bytes_utf8 write_argument];
      match goal with
      | |- context [match ?o with Some _ => _ | None => _ end] => destruct o
      end; reflexivity.
  - cbn [isinstance_basestring isinstance_str read strip_newline].
    rewrite andb_false_r. cbn [orb].
    destruct (major =? 3); cbn [bytes_utf8 write_argument];
      match goal with
      | |- context [match ?o with Some _ => _ | None => _ end] => destruct o
      end; reflexivity.
Qed.

(** Under Python 3 the two kinds of strings are one: a str with one byte
    per character is the Unicode text of its code points, with the same
    white space and the same UTF-8. *)
Lemma unicode_space_low (c : ascii) :
  unicode_space 3 (N_of_ascii c) = isspace 3 c.
Proof.
  unfold unicode_space, isspace. cbn [Z.ltb Z.compare Pos.compare andb].
  pose proof (N_ascii_bounded c) as Hb.
  set (n := N_of_ascii c) in *.
  replace (n =? 5760)%N with false by (symmetry; apply N.eqb_neq; lia).
  replace (8192 <=? n)%N with false by (symmetry; apply N.leb_gt; lia).
  replace (n =? 8232)%N with false by (symmetry; apply N.eqb_neq; lia).
  replace (n =? 8233)%N with false by (symmetry; apply N.eqb_neq; lia).
  replace (n =? 8239)%N with false by (symmetry; apply N.eqb_neq; lia).
  replace (n =? 8287)%N with false by (symmetry; apply N.eqb_neq; lia).
  replace (n =? 12288)%N with false by (symmetry; apply N.eqb_neq; lia).
  cbn [andb]. now rewrite !orb_false_r.
Qed.

Lemma lstrip_text_codepoints (s : string) :
  lstrip_text 3 (codepoints s) = codepoints (lstrip 3 s).
Proof.
  induction s as [|c s IH]; [reflexivity|].
  cbn [codepoints lstrip_text lstrip]. rewrite unicode_space_low.
  destruct (isspace 3 c); [exact IH | reflexivity].
Qed.

Lemma rstrip_text_codepoints (s : string) :
  rstrip_text 3 (codepoints s) = codepoints (rstrip 3 s).
Proof.
  induction s as [|c s IH]; [reflexivity|].
  cbn [codepoints rstrip_text rstrip]. rewrite IH, unicode_space_low.
  destruct (rstrip 3 s); [destruct (isspace 3 c)|]; reflexivity.
Qed.

Lemma strip_text_codepoints (s : string) :
  strip_text 3 (codepoints s) = codepoints (strip 3 s).
Proof.
  unfold strip_text, strip.
  now rewrite lstrip_text_codepoints, rstrip_text_codepoints.
Qed.

Lemma codepoints_app (a b : string) :
  codepoints (a ++ b) = codepoints a ++ codepoints b.
Proof. induction a as [|c a IH]; simpl; [reflexivity | now rewrite IH]. Qed.

Lemma utf8_codepoint_low (c : ascii) :
  utf8_codepoint (N_of_ascii c) = Some (utf8_char c).
Proof.
  unfold utf8_codepoint, utf8_char. cbv zeta.
  pose proof (N_ascii_bounded c) as Hb.
  destruct (N.ltb_spec (N_of_ascii c) 128).
  - cbn [bytes_of]. now rewrite ascii_N_embedding.
  - replace (N_of_ascii c <? 2048)%N with true
      by (symmetry; apply N.ltb_lt; lia).
    reflexivity.
Qed.

Lemma utf8_encode_codepoints (s : string) :
  utf8_encode (codepoints s) = Some (utf8 s).
Proof.
  induction s as [|c s IH]; [reflexivity|].
  cbn [codepoints utf8_encode utf8]. now rewrite utf8_codepoint_low, IH.
Qed.

Lemma say_text_of_str (E : environment) (st : state) (s : string) :
  say E 3 (PyText (codepoints s)) st = say E 3 (PyStr s) st.
Proof.
  destruct (open (self st)) eqn:Hopen.
  - rewrite (say_open E 3 st (PyText (codepoints s)) Hopen eq_refl).
    rewrite (payload_text 3 (PyText (codepoints s)) (codepoints s)
               (or_introl eq_refl) eq_refl).
    rewrite (say_content E 3 st (PyStr s) s Hopen (or_introl eq_refl)).
    unfold encode_text, transmitted. cbn [Z.eqb Pos.eqb].
    rewrite strip_text_codepoints.
    change [10%N] with (codepoints newline).
    rewrite <- codepoints_app, utf8_encode_codepoints. reflexivity.
  - now rewrite !say_on_closed.
Qed.



(** C4. On a session whose [open] flag is false, [say] raises
    [eSpeakExceptionClosed] for every argument; no call is made on any
    stream and the session is as it was. *)
Theorem say_closed (E : environment) (major : Z) (st : state) (x : pyobj) :
  open (self st) = false ->
  fst (say E major x st) = Raise (eSpeakExceptionClosed "process already closed.") /\
  new_events (log st) (log (snd (say E major x st))) = [] /\
  snd (say E major x st) = st.
Proof.
  intros Hclosed. rewrite (say_on_closed E major st x Hclosed). cbn [fst snd].
  split; [reflexivity | split; [|reflexivity]].
  unfold new_events. apply skipn_all.
Qed.

(** C5, as amended. On an open session, an argument that is neither a
    string nor a readable object makes [say] raise [ValueError] with nothing
    written and the session as it was. Conversely, when [say] raises a
    [ValueError] the session is open and either the argument is such a one
    and the error is that of the last line of [say], or the argument is a
    string or a stream and the error comes from a step [say] performs on it:
    reading it, encoding it, or the write or the flush on the pipe. *)
Theorem say_unsupported (E : environment) (major : Z) (st : state) (x : pyobj) :
  (open (self st) = true -> unsupported major x = true ->
     say E major x st = (Raise (ValueError "I don't know what this is."), st)) /\
  (forall e : exn,
     fst (say E major x st) = Raise e ->
     is_value_error e = true ->
     open (self st) = true /\
     (unsupported major x = true /\ e = ValueError "I don't know what this is."
      \/ unsupported major x = false /\ raised_in_step E major st x e)).
Proof.
  split; [apply say_rejects|].
  intros e H He. destruct (open (self st)) eqn:Hopen.
  - split; [reflexivity|].
    destruct (unsupported major x) eqn:Hsup.
    + left. rewrite (say_rejects E major st x Hopen Hsup) in H.
      injection H as <-. auto.
    + right. split; [reflexivity|]. unfold raised_in_step.
      rewrite (say_open E major st x Hopen Hsup) in *.
      destruct (payload major x) as [data|e'].
      * right. unfold write_then_flush in *. cbv zeta in *.
        destruct (method E (log st) (sp (self st)) (StdinWrite data)) eqn:Hw;
          cbn [fst snd log] in *.
        -- exists (sp (self st)), StdinFlush,
             (method E (log st ++ [EvCall (sp (self st)) (StdinWrite data) Done])
                (sp (self st)) StdinFlush).
           split; [exact H|]. rewrite new_events_app. right. left. reflexivity.
        -- exists (sp (self st)), (StdinWrite data), (Failed err).
           split; [exact H|]. rewrite new_events_app. left. reflexivity.
        -- exists (sp (self st)), (StdinWrite data), (FailedValue msg).
           split; [exact H|]. rewrite new_events_app. left. reflexivity.
      * left. cbn [fst] in H. injection H as <-. reflexivity.
  - rewrite (say_on_closed E major st x Hopen) in H.
    injection H as <-. discriminate He.
Qed.

(** C5 fails as stated: after a [reopen] whose spawn failed the session is
    still open on the old process, whose pipe [communicate()] has closed,
    and [say] of a str raises [ValueError]. *)
Lemma say_str_raises_value_error :
  open (self (snd (reopen no_respawn fresh_session))) = true /\
  unsupported 3 (PyStr "hello") = false /\
  fst (say no_respawn 3 (PyStr "hello") (snd (reopen no_respawn fresh_session)))
    = Raise (ValueError "write to closed file").
Proof. repeat split. Qed.

(** The [try] block of [reopen] and [close] never raises: it makes the calls
    of [teardown_events] and leaves the attributes alone. *)
Lemma wait_and_terminate_swallowed (E : environment) (st : state) :
  try_except_pass (wait_and_terminate E) st
  = (Return tt,
     {| self := self st;
        log := log st ++ teardown_events E (sp (self st)) (log st) |}).
Proof.
  unfold try_except_pass, wait_and_terminate, bind, get, teardown_events.
  cbn [fst snd]. rewrite call_eq.
  destruct (method E (log st) (sp (self st)) Communicate) eqn:Hc;
    cbn [outcome_of]; [|reflexivity|reflexivity].
  cbn [self log]. rewrite call_eq. cbn [self log].
  rewrite <- app_assoc.
  destruct (method E _ (sp (self st)) Terminate); reflexivity.
Qed.

Lemma reopen_eq (E : environment) (st : state) :
  let td := teardown_events E (sp (self st)) (log st) in
  let r := popen E (log st ++ td) (args (self st)) in
  reopen E st =
  match r with
  | Spawned h =>
      (Return tt,
       {| self := {| args := args (self st); sp := h; open := true |};
          log := log st ++ td ++ [EvPopen (args (self st)) r] |})
  | SpawnFailed err =>
      (Raise (LibraryError err),
       {| self := self st;
          log := log st ++ td ++ [EvPopen (args (self st)) r] |})
  end.
Proof.
  intros td r. unfold reopen, bind. rewrite wait_and_terminate_swallowed.
  fold td. unfold get, Popen, set_sp, set_open. cbn [self log args sp open].
  fold r. rewrite <- app_assoc. destruct r; reflexivity.
Qed.

Lemma close_eq (E : environment) (st : state) :
  close E st
  = (Return tt,
     {| self := {| args := args (self st); sp := sp (self st); open := false |};
        log := log st ++ teardown_events E (sp (self st)) (log st) |}).
Proof.
  unfold close, bind. rewrite wait_and_terminate_swallowed. reflexivity.
Qed.

Lemma terminate_eq (E : environment) (st : state) :
  terminate E st
  = (Return tt,
     {| self := {| args := args (self st); sp := sp (self st); open := false |};
        log := log st ++ [EvCall (sp (self st)) Terminate
                            (method E (log st) (sp (self st)) Terminate)] |}).
Proof.
  unfold terminate, bind, try_except_pass, get. cbn [fst snd].
  rewrite call_eq.
  destruct (method E (log st) (sp (self st)) Terminate); reflexivity.
Qed.

(** C6. [reopen] makes the calls of the wait-and-terminate sequence, whose
    failures it swallows, and then one [Popen] call with the stored argument
    list. When that call returns a process, [reopen] returns with the
    process stored and [open] true; when it raises, [reopen] raises the same
    error. The answers to [communicate] and [terminate] change nothing of
    this. *)
Theorem reopen_spawns_after_teardown (E : environment) (st : state) :
  let td := teardown_events E (sp (self st)) (log st) in
  let r := popen E (log st ++ td) (args (self st)) in
  log (snd (reopen E st)) = log st ++ td ++ [EvPopen (args (self st)) r] /\
  match r with
  | Spawned h =>
      fst (reopen E st) = Return tt /\
      self (snd (reopen E st))
        = {| args := args (self st); sp := h; open := true |}
  | SpawnFailed err =>
      fst (reopen E st) = Raise (LibraryError err)
  end.
Proof.
  intros td r. pose proof (reopen_eq E st) as H. cbv zeta in H.
  fold td r in H. rewrite H. destruct r; auto.
Qed.

(** C7. [close] never raises, whatever the wait-and-terminate sequence
    does and whether the session was open or not; after it [open] is false
    and [say] raises [eSpeakExceptionClosed]; a second [close] returns too
    and leaves the attributes as the first left them. *)
Theorem close_idempotent (E : environment) (major : Z) (st : state) (x : pyobj) :
  fst (close E st) = Return tt /\
  open (self (snd (close E st))) = false /\
  say E major x (snd (close E st))
    = (Raise (eSpeakExceptionClosed "process already closed."), snd (close E st)) /\
  fst (close E (snd (close E st))) = Return tt /\
  self (snd (close E (snd (close E st)))) = self (snd (close E st)).
Proof.
  rewrite !close_eq. cbn [fst snd self open].
  split; [reflexivity|]. split; [reflexivity|].
  split; [now apply say_on_closed|]. split; reflexivity.
Qed.

(** C8. [terminate] makes one call, [sp.terminate()], without any
    [communicate()] before it; whatever the answer, also a failure because
    the process is gone, [terminate] returns and [open] is false. *)
Theorem terminate_closes (E : environment) (st : state) :
  fst (terminate E st) = Return tt /\
  open (self (snd (terminate E st))) = false /\
  new_events (log st) (log (snd (terminate E st)))
    = [EvCall (sp (self st)) Terminate
         (method E (log st) (sp (self st)) Terminate)].
Proof.
  rewrite terminate_eq. cbn [fst snd self open log].
  split; [reflexivity|]. split; [reflexivity|].
  unfold new_events. rewrite skipn_app, Nat.sub_diag, skipn_all. reflexivity.
Qed.

(** ** The argument list over the life of a session *)

Lemma spawned_with_app (a b : list event) :
  spawned_with (a ++ b) = spawned_with a ++ spawned_with b.
Proof.
  induction a as [|[argv r | h c r] a IH]; simpl; [reflexivity | | exact IH].
  now rewrite IH.
Qed.

Lemma teardown_spawns_nothing (E : environment) (h : handle) (l : list event) :
  spawned_with (teardown_events E h l) = [].
Proof. unfold teardown_events. destruct (method E l h Communicate); reflexivity. Qed.

(** One operation: the log grows, the argument list stays, and a process is
    spawned with nothing but the argument list. *)
Lemma exec_effect (E : environment) (major : Z) (o : operation) (st : state) :
  exists evs : list event,
    log (snd (exec E major o st)) = log st ++ evs /\
    args (self (snd (exec E major o st))) = args (self st) /\
    Forall (fun argv => argv = args (self st)) (spawned_with evs).
Proof.
  destruct o as [x| | |]; cbn [exec].
  - destruct (say_effect E major st x) as (evs & Hs & Hsp & _).
    exists evs. rewrite Hs, Hsp. cbn [snd log self args].
    split; [reflexivity | split; [reflexivity | constructor]].
  - pose proof (reopen_eq E st) as H. cbv zeta in H. rewrite H.
    exists (teardown_events E (sp (self st)) (log st)
            ++ [EvPopen (args (self st))
                  (popen E (log st ++ teardown_events E (sp (self st)) (log st))
                     (args (self st)))]).
    split; [|split].
    + destruct (popen E _ _); cbn [snd log]; reflexivity.
    + destruct (popen E _ _); reflexivity.
    + rewrite spawned_with_app, teardown_spawns_nothing. simpl.
      constructor; [reflexivity | constructor].
  - rewrite close_eq. eexists. cbn [snd log self args].
    split; [reflexivity | split; [reflexivity|]].
    rewrite teardown_spawns_nothing. constructor.
  - rewrite terminate_eq. eexists. cbn [snd log self args].
    split; [reflexivity | split; [reflexivity|]]. simpl. constructor.
Qed.

Lemma run_effect (E : environment) (major : Z) (ops : list operation) :
  forall st : state,
  exists evs : list event,
    log (run E major ops st) = log st ++ evs /\
    args (self (run E major ops st)) = args (self st) /\
    Forall (fun argv => argv = args (self st)) (spawned_with evs).
Proof.
  induction ops as [|o ops IH]; intros st; cbn [run].
  - exists []. rewrite app_nil_r. repeat split. constructor.
  - destruct (exec_effect E major o st) as (e1 & Hl1 & Ha1 & Hs1).
    destruct (IH (snd (exec E major o st))) as (e2 & Hl2 & Ha2 & Hs2).
    exists (e1 ++ e2). rewrite Hl2, Hl1, Ha2, Ha1, app_assoc.
    split; [reflexivity | split; [reflexivity|]].
    rewrite spawned_with_app. apply Forall_app. split; [exact Hs1|].
    rewrite Ha1 in Hs2. exact Hs2.
Qed.

(** C9. [__init__] stores the argument list it launches the process with;
    after any sequence of [say], [reopen], [close] and [terminate], whether
    they return or raise, the stored list is the same, and every process
    spawned along the way was spawned with exactly that list. *)
Theorem args_never_modified (E : environment) (major : Z) (c : config)
    (l : list event) (ops : list operation) (st : state) :
  snd (init E c l)
    = l ++ [EvPopen (build_args (path_exists E) c)
              (popen E l (build_args (path_exists E) c))] /\
  match fst (init E c l) with
  | Return s => args s = build_args (path_exists E) c
  | Raise _ => True
  end /\
  args (self (run E major ops st)) = args (self st) /\
  Forall (fun argv => argv = args (self st))
    (spawned_with (new_events (log st) (log (run E major ops st)))).
Proof.
  split; [|split].
  - unfold init. destruct (popen E l _); reflexivity.
  - unfold init. destruct (popen E l _); cbn [fst]; [reflexivity | exact I].
  - destruct (run_effect E major ops st) as (evs & Hl & Ha & Hs).
    rewrite Hl, new_events_app. auto.
Qed.

(** C10. [reopen] has no test of the [open] flag: it never raises
    [eSpeakExceptionClosed], and on a closed session whose [Popen] call
    returns a process it returns with that process stored and [open] true,
    after which [say] of a str or of a stream returns when its write and its
    flush do. *)
Theorem reopen_from_closed (E : environment) (major : Z) (st : state)
    (h : handle) (x : pyobj) (content : string) :
  (forall msg : string, fst (reopen E st) <> Raise (eSpeakExceptionClosed msg)) /\
  (open (self st) = false ->
   popen E (log st ++ teardown_events E (sp (self st)) (log st)) (args (self st))
     = Spawned h ->
   fst (reopen E st) = Return tt /\
   self (snd (reopen E st)) = {| args := args (self st); sp := h; open := true |} /\
   (x = PyStr content \/ x = PyFile content ->
    let data := transmitted major (strip major content) in
    let l' := log (snd (reopen E st)) in
    method E l' h (StdinWrite data) = Done ->
    method E (l' ++ [EvCall h (StdinWrite data) Done]) h StdinFlush = Done ->
    fst (say E major x (snd (reopen E st))) = Return tt)).
Proof.
  pose proof (reopen_eq E st) as H. cbv zeta in H. split.
  - intros msg. rewrite H. destruct (popen E _ _); discriminate.
  - intros Hclosed Hspawn. rewrite Hspawn in H.
    assert (Hself : self (snd (reopen E st))
                    = {| args := args (self st); sp := h; open := true |})
      by now rewrite H.
    split; [now rewrite H | split; [exact Hself|]].
    intros Hx data l' Hw Hf.
    assert (Hopen : open (self (snd (reopen E st))) = true) by now rewrite Hself.
    rewrite (say_content E major _ x content Hopen Hx).
    unfold write_then_flush. cbv zeta. rewrite Hself. cbn [sp].
    fold data l'. rewrite Hw, Hf. reflexivity.
Qed.

(** ** The programs run on concrete sessions *)

Example init_obliging :
  init obliging default_config [] = (Return (self fresh_session), log fresh_session).
Proof. reflexivity. Qed.

Example init_hostile :
  init hostile default_config []
  = (Raise (LibraryError "OSError"), [EvPopen ["espeak"] (SpawnFailed "OSError")]).
Proof. reflexivity. Qed.

Example close_fresh : close obliging fresh_session = (Return tt, closed_session).
Proof. reflexivity. Qed.

Example terminate_process_gone :
  terminate hostile fresh_session
  = (Return tt,
     {| self := {| args := ["espeak"]; sp := 0%nat; open := false |};
        log := log fresh_session ++ [EvCall 0%nat Terminate (Failed "OSError")] |}).
Proof. reflexivity. Qed.

(** A failed [communicate] skips [terminate]; the failed spawn is raised, and
    the attributes stay as they were. *)
Example reopen_spawn_fails :
  reopen hostile fresh_session
  = (Raise (LibraryError "OSError"),
     {| self := self fresh_session;
        log := log fresh_session
               ++ [EvCall 0%nat Communicate (Failed "OSError");
                   EvPopen ["espeak"] (SpawnFailed "OSError")] |}).
Proof. reflexivity. Qed.

(** Unicode text: the euro sign goes out as its three UTF-8 bytes under
    Python 3; as a unicode of Python 2 it does not pass the ASCII codec of
    [write], while ASCII text does. *)
Example say_euro_python3 :
  written (new_events (log fresh_session)
             (log (snd (say obliging 3 (PyText [8364%N]) fresh_session))))
  = [bytes_of [226%N; 130%N; 172%N; 10%N]].
Proof. reflexivity. Qed.

Example say_euro_python2 :
  say obliging 2 (PyText [8364%N]) fresh_session
  = (Raise (UnicodeEncodeError "ascii"), fresh_session).
Proof. reflexivity. Qed.

Example say_unicode_python2 :
  written (new_events (log fresh_session)
             (log (snd (say obliging 2 (PyText [32%N; 104%N; 105%N; 12288%N])
                          fresh_session))))
  = [("hi" ++ newline)%string].
Proof. reflexivity. Qed.

Lemma build_args_documented_witness :
  voice (mkConfig (VoiceStr "de") 120 2 1 40 60 200 true true (Some "/opt")
           (PunctStr ",;")) <> VoiceStr "default" /\
  build_args all_voices
    (mkConfig (VoiceStr "de") 120 2 1 40 60 200 true true (Some "/opt")
       (PunctStr ",;"))
  = spec_args all_voices truthy_path
      (mkConfig (VoiceStr "de") 120 2 1 40 60 200 true true (Some "/opt")
         (PunctStr ",;")).
Proof.
  split; [simpl; discriminate|].
  apply (build_args_documented all_voices). simpl. discriminate.
Defined.





Lemma say_closed_witness :
  open (self closed_session) = false /\
  fst (say obliging 3 (PyStr "hello") closed_session)
    = Raise (eSpeakExceptionClosed "process already closed.") /\
  snd (say obliging 3 (PyStr "hello") closed_session) = closed_session.
Proof.
  destruct (say_closed obliging 3 closed_session (PyStr "hello") eq_refl)
    as (H1 & _ & H2).
  split; [reflexivity | split; [exact H1 | exact H2]].
Defined.

Lemma say_unsupported_witness :
  say obliging 3 (PyInt 42) fresh_session
  = (Raise (ValueError "I don't know what this is."), fresh_session) /\
  (open (self fresh_session) = true /\
   (unsupported 3 (PyInt 42) = true /\
    ValueError "I don't know what this is."
    = ValueError "I don't know what this is."
    \/ unsupported 3 (PyInt 42) = false /\
       raised_in_step obliging 3 fresh_session (PyInt 42)
         (ValueError "I don't know what this is."))).
Proof.
  destruct (say_unsupported obliging 3 fresh_session (PyInt 42)) as [H1 H2].
  split.
  - apply H1; reflexivity.
  - apply (H2 (ValueError "I don't know what this is.")); reflexivity.
Defined.

Lemma reopen_from_closed_witness :
  open (self closed_session) = false /\
  fst (reopen obliging closed_session) = Return tt /\
  self (snd (reopen obliging closed_session))
    = {| args := ["espeak"]; sp := 5%nat; open := true |} /\
  fst (say obliging 3 (PyStr "hello") (snd (reopen obliging closed_session)))
    = Return tt.
Proof.
  destruct (reopen_from_closed obliging 3 closed_session 5%nat (PyStr "hello")
              "hello") as [_ H].
  destruct (H eq_refl eq_refl) as (H1 & H2 & H3).
  split; [reflexivity|]. split; [exact H1|]. split; [exact H2|].
  apply H3; [left; reflexivity | reflexivity | reflexivity].
Defined.

(** * Further properties *)

(** ** The argument list and the file system *)

(** X1. The file system enters the argument list only through the one voice
    file, and not at all for the default voice: two file systems that agree
    on that file give the same list. *)
Theorem build_args_file_system (pe pe' : string -> bool) (c : config) :
  voice c = VoiceDefault \/ pe (voice_file c) = pe' (voice_file c) ->
  build_args pe c = build_args pe' c.
Proof.
  intros H. rewrite !build_args_entries. unfold source_entries.
  fold (voice_file c). do 3 f_equal.
  destruct H as [H | H]; [rewrite H; reflexivity | now rewrite H].
Qed.

Lemma build_args_file_system_witness :
  build_args all_voices default_config = build_args no_voices default_config.
Proof.
  apply (build_args_file_system all_voices no_voices default_config).
  left. reflexivity.
Defined.

(** X2. A voice whose file does not exist is dropped without an error: the
    list is the one of the default voice. *)
Theorem missing_voice_omitted (pe : string -> bool) (c : config) :
  pe (voice_file c) = false ->
  build_args pe c = build_args pe (with_voice VoiceDefault c).
Proof.
  intros H. rewrite !build_args_entries. unfold source_entries.
  fold (voice_file c). rewrite H, andb_false_r. reflexivity.
Qed.

Lemma missing_voice_omitted_witness :
  build_args no_voices (with_voice (VoiceStr "xx") default_config)
  = build_args no_voices
      (with_voice VoiceDefault (with_voice (VoiceStr "xx") default_config)).
Proof.
  apply (missing_voice_omitted no_voices
           (with_voice (VoiceStr "xx") default_config)).
  reflexivity.
Defined.

(** ** The numbers in the argument list *)

Lemma parse_int_str (n : Z) : parse_int (str n) = Some n.
Proof.
  unfold parse_int, str. rewrite NilZero.isi.
  - simpl. now rewrite DecimalZ.of_to.
  - destruct n as [|p|p]; simpl; try discriminate.
    intros [= H]. now apply (DecimalPos.Unsigned.to_uint_nonnil p).
  - destruct n as [|p|p]; simpl; try discriminate.
    intros [= H]. now apply (DecimalPos.Unsigned.to_uint_nonnil p).
Qed.

Lemma str_inj (a b : Z) : str a = str b -> a = b.
Proof.
  intros H. apply (f_equal parse_int) in H.
  rewrite !parse_int_str in H. now injection H.
Qed.

(** Two lists that differ in one entry only: when the first has the flag
    with the numeral of [v1] there, equal lists have equal numbers. *)
Lemma entry_value_inj (before after : list string) (flag : string)
    (b2 : bool) (v1 v2 : Z) :
  before ++ entry true [flag; str v1] ++ after
  = before ++ entry b2 [flag; str v2] ++ after ->
  v1 = v2.
Proof.
  intros H. apply app_inv_head in H. apply app_inv_tail in H.
  destruct b2; simpl in H; [|discriminate].
  injection H as H. now apply str_inj.
Qed.

Lemma build_args_at_amplitude (pe : string -> bool) (c : config) (v : Z) :
  build_args pe (with_amplitude v c)
  = (ESPEAKCMD :: concat (firstn 1 (source_entries pe c)))
    ++ entry (negb (v =? 100) && in_range 0 200 v) ["-a"; str v]
    ++ concat (skipn 2 (source_entries pe c)).
Proof.
  rewrite build_args_entries. unfold source_entries. simpl.
  rewrite ?app_nil_r, <- ?app_assoc. reflexivity.
Qed.

Lemma build_args_at_pitch (pe : string -> bool) (c : config) (v : Z) :
  build_args pe (with_pitch v c)
  = (ESPEAKCMD :: concat (firstn 5 (source_entries pe c)))
    ++ entry (negb (v =? 50) && in_range 0 99 v) ["-p"; str v]
    ++ concat (skipn 6 (source_entries pe c)).
Proof.
  rewrite build_args_entries. unfold source_entries. simpl.
  rewrite ?app_nil_r, <- ?app_assoc. reflexivity.
Qed.

Lemma build_args_at_speed (pe : string -> bool) (c : config) (v : Z) :
  build_args pe (with_speed v c)
  = (ESPEAKCMD :: concat (firstn 6 (source_entries pe c)))
    ++ entry (negb (v =? 175) && in_range 80 450 v) ["-s"; str v]
    ++ concat (skipn 7 (source_entries pe c)).
Proof.
  rewrite build_args_entries. unfold source_entries. simpl.
  rewrite ?app_nil_r, <- ?app_assoc. reflexivity.
Qed.

Lemma build_args_at_gap (pe : string -> bool) (c : config) (v : Z) :
  build_args pe (with_gap v c)
  = (ESPEAKCMD :: concat (firstn 2 (source_entries pe c)))
    ++ entry (negb (v =? 1)) ["-g"; str v]
    ++ concat (skipn 3 (source_entries pe c)).
Proof.
  rewrite build_args_entries. unfold source_entries. simpl.
  rewrite ?app_nil_r, <- ?app_assoc. reflexivity.
Qed.

Lemma build_args_at_capitals (pe : string -> bool) (c : config) (v : Z) :
  build_args pe (with_capitals v c)
  = (ESPEAKCMD :: concat (firstn 3 (source_entries pe c)))
    ++ entry (negb (v =? 0)) ["-k"; str v]
    ++ concat (skipn 4 (source_entries pe c)).
Proof.
  rewrite build_args_entries. unfold source_entries. simpl.
  rewrite ?app_nil_r, <- ?app_assoc. reflexivity.
Qed.

Lemma build_args_at_linelength (pe : string -> bool) (c : config) (v : Z) :
  build_args pe (with_linelength v c)
  = (ESPEAKCMD :: concat (firstn 4 (source_entries pe c)))
    ++ entry (negb (v =? 0)) ["-l"; str v]
    ++ concat (skipn 5 (source_entries pe c)).
Proof.
  rewrite build_args_entries. unfold source_entries. simpl.
  rewrite ?app_nil_r, <- ?app_assoc. reflexivity.
Qed.

(** X3. The numeral written for an accepted amplitude, pitch or speed
    identifies the value: when [v1] is in range and not the default, a value
    [v2] that gives the same argument list is [v1]. *)
Theorem ranged_values_faithful (pe : string -> bool) (c : config) (v1 v2 : Z) :
  (in_range 0 200 v1 = true -> v1 <> 100 ->
   build_args pe (with_amplitude v1 c) = build_args pe (with_amplitude v2 c) ->
   v1 = v2) /\
  (in_range 0 99 v1 = true -> v1 <> 50 ->
   build_args pe (with_pitch v1 c) = build_args pe (with_pitch v2 c) ->
   v1 = v2) /\
  (in_range 80 450 v1 = true -> v1 <> 175 ->
   build_args pe (with_speed v1 c) = build_args pe (with_speed v2 c) ->
   v1 = v2).
Proof.
  split; [|split]; intros Hr Hv H; apply Z.eqb_neq in Hv.
  - rewrite !build_args_at_amplitude, Hr, Hv in H.
    now apply entry_value_inj in H.
  - rewrite !build_args_at_pitch, Hr, Hv in H.
    now apply entry_value_inj in H.
  - rewrite !build_args_at_speed, Hr, Hv in H.
    now apply entry_value_inj in H.
Qed.

Lemma ranged_values_faithful_witness :
  (in_range 0 200 0 = true /\ 0 <> 100 /\
   build_args no_voices (with_amplitude 0 default_config)
   = build_args no_voices (with_amplitude 0 default_config)) /\
  (in_range 0 99 99 = true /\ 99 <> 50 /\
   build_args no_voices (with_pitch 99 default_config)
   = build_args no_voices (with_pitch 99 default_config)) /\
  (in_range 80 450 450 = true /\ 450 <> 175 /\
   build_args no_voices (with_speed 450 default_config)
   = build_args no_voices (with_speed 450 default_config)) /\
  0 = 0 /\ 99 = 99 /\ 450 = 450.
Proof.
  split; [repeat split; discriminate|].
  split; [repeat split; discriminate|].
  split; [repeat split; discriminate|].
  split; [|split].
  - apply (proj1 (ranged_values_faithful no_voices default_config 0 0));
      [reflexivity | discriminate | reflexivity].
  - apply (proj1 (proj2 (ranged_values_faithful no_voices default_config 99 99)));
      [reflexivity | discriminate | reflexivity].
  - apply (proj2 (proj2 (ranged_values_faithful no_voices default_config 450 450)));
      [reflexivity | discriminate | reflexivity].
Defined.

(** X4. [gap], [capitals] and [linelength] have no range: every value other
    than the default, negative ones included, is written after its flag, and
    the numeral identifies the value. *)
Theorem unranged_values_passed (pe : string -> bool) (c : config) (v1 v2 : Z) :
  (v1 <> 1 ->
   build_args pe (with_gap v1 c)
   = (ESPEAKCMD :: concat (firstn 2 (source_entries pe c)))
     ++ ["-g"; str v1] ++ concat (skipn 3 (source_entries pe c)) /\
   (build_args pe (with_gap v1 c) = build_args pe (with_gap v2 c) -> v1 = v2)) /\
  (v1 <> 0 ->
   build_args pe (with_capitals v1 c)
   = (ESPEAKCMD :: concat (firstn 3 (source_entries pe c)))
     ++ ["-k"; str v1] ++ concat (skipn 4 (source_entries pe c)) /\
   (build_args pe (with_capitals v1 c) = build_args pe (with_capitals v2 c) ->
    v1 = v2)) /\
  (v1 <> 0 ->
   build_args pe (with_linelength v1 c)
   = (ESPEAKCMD :: concat (firstn 4 (source_entries pe c)))
     ++ ["-l"; str v1] ++ concat (skipn 5 (source_entries pe c)) /\
   (build_args pe (with_linelength v1 c) = build_args pe (with_linelength v2 c) ->
    v1 = v2)).
Proof.
  split; [|split]; intros Hv; apply Z.eqb_neq in Hv.
  - rewrite !build_args_at_gap, Hv. split; [reflexivity|].
    intros H. now apply entry_value_inj in H.
  - rewrite !build_args_at_capitals, Hv. split; [reflexivity|].
    intros H. now apply entry_value_inj in H.
  - rewrite !build_args_at_linelength, Hv. split; [reflexivity|].
    intros H. now apply entry_value_inj in H.
Qed.

Lemma unranged_values_passed_witness :
  build_args no_voices (with_gap (-3) default_config) = ["espeak"; "-g"; "-3"] /\
  build_args no_voices (with_capitals 1000 default_config)
    = ["espeak"; "-k"; "1000"] /\
  build_args no_voices (with_linelength (-1) default_config)
    = ["espeak"; "-l"; "-1"].
Proof.
  destruct (unranged_values_passed no_voices default_config (-3) (-3))
    as (Hg & _ & _).
  destruct (unranged_values_passed no_voices default_config 1000 1000)
    as (_ & Hk & _).
  destruct (unranged_values_passed no_voices default_config (-1) (-1))
    as (_ & _ & Hl).
  split; [|split].
  - apply Hg. discriminate.
  - apply Hk. discriminate.
  - apply Hl. discriminate.
Defined.

Lemma last_app_nonempty (a b : list string) (d : string) :
  b <> [] -> last (a ++ b) d = last b d.
Proof.
  intros Hb. induction a as [|x a IH]; [reflexivity|].
  cbn [app]. destruct (a ++ b) eqn:Hab.
  - destruct a; [now elim Hb | discriminate].
  - exact IH.
Qed.

(** X5. [punct] is handled last: when it is [True] or a str, the empty str
    included, its entry is the final item of the argument list. *)
Theorem punct_entry_last (pe : string -> bool) (c : config) (s : string) :
  (punct c = PunctBool true -> last (build_args pe c) "" = "--punct") /\
  (punct c = PunctStr s -> last (build_args pe c) "" = ("--punct=" ++ s)%string).
Proof.
  assert (H : build_args pe c
              = (ESPEAKCMD :: concat (firstn 10 (source_entries pe c)))
                ++ punct_entry (punct c)).
  { rewrite build_args_entries. unfold source_entries. simpl.
    rewrite ?app_nil_r, <- ?app_assoc. reflexivity. }
  split; intros Hp; rewrite H, Hp; simpl punct_entry;
    rewrite last_app_nonempty by discriminate; reflexivity.
Qed.

Lemma punct_entry_last_witness :
  last (build_args no_voices
          (mkConfig VoiceDefault 100 1 0 0 50 200 true false None (PunctBool true)))
    "" = "--punct" /\
  last (build_args no_voices
          (mkConfig VoiceDefault 100 1 0 0 50 200 true false None (PunctStr "")))
    "" = "--punct=".
Proof.
  split.
  - apply (proj1 (punct_entry_last no_voices
                    (mkConfig VoiceDefault 100 1 0 0 50 200 true false None
                       (PunctBool true)) "")).
    reflexivity.
  - apply (proj2 (punct_entry_last no_voices
                    (mkConfig VoiceDefault 100 1 0 0 50 200 true false None
                       (PunctStr "")) "")).
    reflexivity.
Defined.

(** ** What [say] writes *)

Lemma strip_all_space (major : Z) (s : string) :
  all_space major s = true -> strip major s = EmptyString.
Proof. intros H. unfold strip. now rewrite lstrip_all_space. Qed.

Lemma transmitted_empty (major : Z) : transmitted major EmptyString = newline.
Proof. unfold transmitted. destruct (major =? 3); reflexivity. Qed.

Lemma say_written (E : environment) (major : Z) (st : state) (x : pyobj)
    (content : string) :
  open (self st) = true ->
  x = PyStr content \/ x = PyFile content ->
  written (new_events (log st) (log (snd (say E major x st))))
  = [transmitted major (strip major content)].
Proof.
  intros Hopen Hx. rewrite (say_content E major st x content Hopen Hx).
  destruct (write_then_flush_effect E st (transmitted major (strip major content)))
    as (evs & Hs & _ & Hw & _).
  rewrite Hs. cbn [log]. rewrite new_events_app. exact Hw.
Qed.

(** X6. Empty or all-white-space content is not skipped: on an open session
    [say] still makes its write, of a lone newline. *)
Theorem say_blank_writes_newline (E : environment) (major : Z) (st : state)
    (x : pyobj) (content : string) :
  open (self st) = true ->
  x = PyStr content \/ x = PyFile content ->
  all_space major content = true ->
  written (new_events (log st) (log (snd (say E major x st)))) = [newline].
Proof.
  intros Hopen Hx Hb. rewrite (say_written E major st x content Hopen Hx).
  now rewrite strip_all_space, transmitted_empty.
Qed.

Lemma say_blank_writes_newline_witness :
  written (new_events (log fresh_session)
             (log (snd (say obliging 3 (PyStr "   ") fresh_session))))
  = [newline] /\
  written (new_events (log fresh_session)
             (log (snd (say hostile 2 (PyFile "") fresh_session))))
  = [newline].
Proof.
  split.
  - apply (say_blank_writes_newline obliging 3 fresh_session (PyStr "   ") "   ");
      [reflexivity | left; reflexivity | reflexivity].
  - apply (say_blank_writes_newline hostile 2 fresh_session (PyFile "") "");
      [reflexivity | right; reflexivity | reflexivity].
Defined.

(** X7. A stream is handled by what its [read()] returns. A str: as that
    str given directly, in every state and environment. Unicode text: as
    that text, when the interpreter takes the text as a string. The bytes of
    a binary stream, from Python 3 on: [say] raises [TypeError]. And when
    [read()] raises, as on a closed stream, [say] raises that error. In the
    last two cases no call is made and the session is as it was. *)
Theorem say_stream_as_str (E : environment) (major : Z) (st : state)
    (content : string) (cps : list N) :
  say E major (PyFile content) st = say E major (PyStr content) st /\
  (unsupported major (PyText cps) = false ->
   say E major (PyTextFile cps) st = say E major (PyText cps) st) /\
  (open (self st) = true -> 3 <= major ->
   say E major (PyBinaryFile content) st
   = (Raise (TypeError "can't concat str to bytes"), st)) /\
  (open (self st) = true ->
   say E major PyClosedFile st
   = (Raise (ValueError "I/O operation on closed file."), st)).
Proof.
  split; [|split; [|split]].
  - destruct (open (self st)) eqn:Hopen.
    + rewrite (say_content E major st (PyFile content) content Hopen
                 (or_intror eq_refl)).
      rewrite (say_content E major st (PyStr content) content Hopen
                 (or_introl eq_refl)).
      reflexivity.
    + now rewrite !say_on_closed.
  - intros Hsup. destruct (open (self st)) eqn:Hopen.
    + rewrite (say_open E major st (PyTextFile cps) Hopen
                 (readable_supported major (PyTextFile cps) eq_refl)).
      rewrite (say_open E major st (PyText cps) Hopen Hsup).
      rewrite (payload_text major (PyTextFile cps) cps (or_intror eq_refl)
                 (readable_supported major (PyTextFile cps) eq_refl)).
      rewrite (payload_text major (PyText cps) cps (or_introl eq_refl) Hsup).
      reflexivity.
    + now rewrite !say_on_closed.
  - intros Hopen Hmajor.
    rewrite (say_open E major st (PyBinaryFile content) Hopen
               (readable_supported major (PyBinaryFile content) eq_refl)).
    unfold payload, encoded. cbn [isinstance_basestring isinstance_str read].
    rewrite andb_false_r. cbn [orb].
    replace (major <? 3) with false by (symmetry; apply Z.ltb_ge; exact Hmajor).
    reflexivity.
  - intros Hopen.
    rewrite (say_open E major st PyClosedFile Hopen
               (readable_supported major PyClosedFile eq_refl)).
    unfold payload. cbn [isinstance_basestring isinstance_str read].
    rewrite andb_false_r. reflexivity.
Qed.

Lemma say_stream_as_str_witness :
  say obliging 3 (PyTextFile [8364%N]) fresh_session
    = say obliging 3 (PyText [8364%N]) fresh_session /\
  say obliging 3 (PyBinaryFile "hello") fresh_session
    = (Raise (TypeError "can't concat str to bytes"), fresh_session) /\
  say obliging 3 PyClosedFile fresh_session
    = (Raise (ValueError "I/O operation on closed file."), fresh_session).
Proof.
  destruct (say_stream_as_str obliging 3 fresh_session "hello" [8364%N])
    as (_ & H1 & H2 & H3).
  split; [apply H1; reflexivity | split].
  - apply H2; [reflexivity | discriminate].
  - apply H3. reflexivity.
Defined.

Lemma strip_idempotent (major : Z) (s : string) :
  strip major (strip major s) = strip major s.
Proof.
  symmetry. apply trimmed_strip.
  destruct (strip_trimmed major s) as (l & r & _ & _ & _ & Hf & Hl).
  exists EmptyString, EmptyString. simpl.
  assert (Happ : forall t : string, (t ++ "")%string = t).
  { induction t as [|c t IH]; simpl; [reflexivity | now rewrite IH]. }
  rewrite Happ. auto.
Qed.

(** X8. Stripping the text before the call changes nothing: [say] of a str
    and of the str already stripped have the same result. *)
Theorem say_prestripped (E : environment) (major : Z) (st : state) (s : string) :
  say E major (PyStr (strip major s)) st = say E major (PyStr s) st.
Proof.
  destruct (open (self st)) eqn:Hopen.
  - rewrite (say_content E major st (PyStr (strip major s)) (strip major s)
               Hopen (or_introl eq_refl)).
    rewrite (say_content E major st (PyStr s) s Hopen (or_introl eq_refl)).
    rewrite strip_idempotent. reflexivity.
  - now rewrite !say_on_closed.
Qed.

(** ** The two interpreter branches of [say] *)

Lemma same_space_head (c : ascii) (s : string) :
  same_space (String c s) = true ->
  isspace 2 c = isspace 3 c /\ same_space s = true.
Proof.
  simpl. intros H. apply andb_true_iff in H. destruct H as [Hc Hs].
  split; [now apply Bool.eqb_prop | exact Hs].
Qed.

Lemma lstrip_same (s : string) :
  same_space s = true -> lstrip 2 s = lstrip 3 s.
Proof.
  induction s as [|c s IH]; [reflexivity|].
  intros H. apply same_space_head in H. destruct H as [Hc Hs].
  cbn [lstrip]. rewrite Hc. destruct (isspace 3 c); [now apply IH | reflexivity].
Qed.

Lemma same_space_lstrip (s : string) :
  same_space s = true -> same_space (lstrip 3 s) = true.
Proof.
  induction s as [|c s IH]; [reflexivity|].
  intros H. cbn [lstrip]. destruct (isspace 3 c); [|exact H].
  apply same_space_head in H. now apply IH.
Qed.

Lemma rstrip_same (s : string) :
  same_space s = true -> rstrip 2 s = rstrip 3 s.
Proof.
  induction s as [|c s IH]; [reflexivity|].
  intros H. apply same_space_head in H. destruct H as [Hc Hs].
  cbn [rstrip]. now rewrite (IH Hs), Hc.
Qed.

Lemma strip_same (s : string) :
  same_space s = true -> strip 2 s = strip 3 s.
Proof.
  intros H. unfold strip. rewrite (lstrip_same s H).
  apply rstrip_same. now apply same_space_lstrip.
Qed.

(** X9. For ASCII content on whose white space the two interpreters agree
    (no character 28 to 31), the Python 2 branch and the Python 3 branch of
    [say] do the same: same calls, same bytes, same result. *)
Theorem say_versions_agree (E : environment) (st : state) (x : pyobj)
    (content : string) :
  x = PyStr content \/ x = PyFile content ->
  is_ascii content = true ->
  same_space content = true ->
  say E 2 x st = say E 3 x st.
Proof.
  intros Hx Ha Hs. destruct (open (self st)) eqn:Hopen.
  - rewrite (say_content E 2 st x content Hopen Hx).
    rewrite (say_content E 3 st x content Hopen Hx).
    rewrite (strip_same content Hs).
    assert (Ht : is_ascii (strip 3 content) = true)
      by (eapply trimmed_ascii; [apply strip_trimmed | exact Ha]).
    rewrite (transmitted_ascii 2 _ Ht), (transmitted_ascii 3 _ Ht).
    reflexivity.
  - now rewrite !say_on_closed.
Qed.

Lemma say_versions_agree_witness :
  say obliging 2 (PyStr "  hello world  ") fresh_session
  = say obliging 3 (PyStr "  hello world  ") fresh_session.
Proof.
  apply (say_versions_agree obliging fresh_session (PyStr "  hello world  ")
           "  hello world  ");
    [left; reflexivity | reflexivity | reflexivity].
Defined.

(** Where they differ: the separator 28 is white space for Python 3 only. *)
Example separator_stripped_by_python3_only :
  strip 3 (String (ascii_of_N 28) "hi") = "hi" /\
  strip 2 (String (ascii_of_N 28) "hi") = String (ascii_of_N 28) "hi".
Proof. split; reflexivity. Qed.

(** ** Teardown and respawn *)

Lemma teardown_first_call (E : environment) (h : handle) (l : list event) :
  hd_error (teardown_events E h l)
  = Some (EvCall h Communicate (method E l h Communicate)).
Proof. unfold teardown_events. destruct (method E l h Communicate); reflexivity. Qed.

(** X10. When the [Popen] call of [reopen] raises, the attributes are not
    touched: a session that was open is still marked open and still refers
    to the old process, on which [communicate()] has been called, and the
    next [say] makes its write on that process. *)
Theorem reopen_failed_spawn_keeps_session (E : environment) (major : Z)
    (st : state) (err : string) (x : pyobj) (content : string) :
  popen E (log st ++ teardown_events E (sp (self st)) (log st)) (args (self st))
    = SpawnFailed err ->
  fst (reopen E st) = Raise (LibraryError err) /\
  self (snd (reopen E st)) = self st /\
  hd_error (new_events (log st) (log (snd (reopen E st))))
    = Some (EvCall (sp (self st)) Communicate
              (method E (log st) (sp (self st)) Communicate)) /\
  (open (self st) = true ->
   x = PyStr content \/ x = PyFile content ->
   hd_error (new_events (log (snd (reopen E st)))
               (log (snd (say E major x (snd (reopen E st))))))
   = Some (EvCall (sp (self st))
             (StdinWrite (transmitted major (strip major content)))
             (method E (log (snd (reopen E st))) (sp (self st))
                (StdinWrite (transmitted major (strip major content)))))).
Proof.
  intros Hfail. pose proof (reopen_eq E st) as H. cbv zeta in H.
  rewrite Hfail in H. rewrite H. cbn [fst snd self log].
  split; [reflexivity | split; [reflexivity | split]].
  - rewrite new_events_app.
    pose proof (teardown_first_call E (sp (self st)) (log st)) as Hhd.
    destruct (teardown_events E (sp (self st)) (log st)); [discriminate|].
    exact Hhd.
  - intros Hopen Hx.
    set (st' := {| self := self st;
                   log := log st ++ teardown_events E (sp (self st)) (log st)
                          ++ [EvPopen (args (self st)) (SpawnFailed err)] |}).
    rewrite (say_content E major st' x content Hopen Hx).
    destruct (write_then_flush_effect E st'
                (transmitted major (strip major content)))
      as (evs & Hs & _ & _ & _ & _ & Hhd).
    rewrite Hs. cbn [log]. rewrite new_events_app. exact Hhd.
Qed.

Lemma reopen_failed_spawn_keeps_session_witness :
  fst (reopen hostile fresh_session) = Raise (LibraryError "OSError") /\
  self (snd (reopen hostile fresh_session)) = self fresh_session /\
  hd_error (new_events (log (snd (reopen hostile fresh_session)))
              (log (snd (say hostile 3 (PyStr "hello")
                           (snd (reopen hostile fresh_session))))))
  = Some (EvCall 0%nat (StdinWrite ("hello" ++ newline)) (Failed "OSError")).
Proof.
  destruct (reopen_failed_spawn_keeps_session hostile 3 fresh_session "OSError"
              (PyStr "hello") "hello" eq_refl) as (H1 & H2 & _ & H3).
  split; [exact H1 | split; [exact H2|]].
  apply H3; [reflexivity | left; reflexivity].
Defined.

(** X11. [close], [terminate] and [reopen] never look at the [open]
    attribute: with the attribute set either way they make the same calls
    and have the same outcome, and the same final state whenever [reopen]
    returns. *)
Theorem teardown_ignores_open_flag (E : environment) (st : state) (b : bool) :
  close E (with_open b st) = close E st /\
  terminate E (with_open b st) = terminate E st /\
  fst (reopen E (with_open b st)) = fst (reopen E st) /\
  log (snd (reopen E (with_open b st))) = log (snd (reopen E st)) /\
  match fst (reopen E st) with
  | Return _ => reopen E (with_open b st) = reopen E st
  | Raise _ => True
  end.
Proof.
  rewrite !close_eq, !terminate_eq.
  pose proof (reopen_eq E st) as H1. pose proof (reopen_eq E (with_open b st)) as H2.
  cbv zeta in H1, H2. cbn [with_open self log args sp] in H2.
  rewrite H1, H2. cbn [with_open self log args sp].
  split; [reflexivity | split; [reflexivity|]].
  destruct (popen E _ (args (self st))); cbn [fst snd log]; auto.
Qed.



(** ** Sequences of operations *)

Lemma last_spawned_app (cur : handle) (a b : list event) :
  last_spawned cur (a ++ b) = last_spawned (last_spawned cur a) b.
Proof.
  revert cur. induction a as [|[argv [h|err] | h c r] a IH]; intros cur; simpl; auto.
Qed.

Lemma targets_current_app (cur : handle) (a b : list event) :
  targets_current cur (a ++ b)
  = targets_current cur a && targets_current (last_spawned cur a) b.
Proof.
  revert cur. induction a as [|[argv [h|err] | h c r] a IH]; intros cur; simpl; auto.
  now rewrite IH, andb_assoc.
Qed.

Lemma written_app (a b : list event) : written (a ++ b) = written a ++ written b.
Proof.
  induction a as [|[argv r | h [data| | |] r] a IH]; simpl; auto.
  now rewrite IH.
Qed.

Lemma teardown_targets (E : environment) (h : handle) (l : list event) :
  targets_current h (teardown_events E h l) = true /\
  last_spawned h (teardown_events E h l) = h /\
  written (teardown_events E h l) = [].
Proof.
  unfold teardown_events. destruct (method E l h Communicate); simpl;
    rewrite ?Nat.eqb_refl; auto.
Qed.

(** What one operation adds to the log, and where it leaves the session. *)
Lemma exec_facts (E : environment) (major : Z) (o : operation) (st : state) :
  exists evs : list event,
    log (snd (exec E major o st)) = log st ++ evs /\
    targets_current (sp (self st)) evs = true /\
    sp (self (snd (exec E major o st))) = last_spawned (sp (self st)) evs /\
    length (spawned_with evs) = count_reopen [o] /\
    (o <> OpReopen -> open (self st) = false ->
     open (self (snd (exec E major o st))) = false /\ written evs = []).
Proof.
  destruct o as [x| | |]; cbn [exec].
  - destruct (say_effect E major st x) as (evs & Hs & Hsp & Ht & Hl & Hc).
    exists evs. rewrite Hs, Hsp, Hl. cbn [snd log self sp open].
    do 4 (split; [reflexivity || exact Ht|]).
    intros _ Hclosed. rewrite (Hc Hclosed). split; [exact Hclosed | reflexivity].
  - pose proof (reopen_eq E st) as H. cbv zeta in H. rewrite H. clear H.
    destruct (teardown_targets E (sp (self st)) (log st)) as (Ht & Hl & _).
    exists (teardown_events E (sp (self st)) (log st)
            ++ [EvPopen (args (self st))
                  (popen E (log st ++ teardown_events E (sp (self st)) (log st))
                     (args (self st)))]).
    split; [|split; [|split; [|split]]].
    + destruct (popen E _ _); reflexivity.
    + rewrite targets_current_app, Ht, Hl.
      destruct (popen E _ _); reflexivity.
    + rewrite last_spawned_app, Hl.
      destruct (popen E _ _); reflexivity.
    + rewrite spawned_with_app, teardown_spawns_nothing. reflexivity.
    + intros Hne. now elim Hne.
  - rewrite close_eq.
    destruct (teardown_targets E (sp (self st)) (log st)) as (Ht & Hl & Hw).
    exists (teardown_events E (sp (self st)) (log st)).
    cbn [snd log self sp open]. rewrite teardown_spawns_nothing.
    repeat split; auto.
  - rewrite terminate_eq. eexists. cbn [snd log self sp open].
    split; [reflexivity|]. simpl. rewrite Nat.eqb_refl. repeat split; auto.
Qed.

Lemma count_reopen_cons (o : operation) (ops : list operation) :
  count_reopen (o :: ops) = (count_reopen [o] + count_reopen ops)%nat.
Proof. destruct o; reflexivity. Qed.

Lemma run_facts (E : environment) (major : Z) (ops : list operation) :
  forall st : state,
  exists evs : list event,
    log (run E major ops st) = log st ++ evs /\
    targets_current (sp (self st)) evs = true /\
    sp (self (run E major ops st)) = last_spawned (sp (self st)) evs /\
    length (spawned_with evs) = count_reopen ops /\
    (count_reopen ops = 0%nat -> open (self st) = false ->
     open (self (run E major ops st)) = false /\ written evs = []).
Proof.
  induction ops as [|o ops IH]; intros st; cbn [run].
  - exists []. rewrite app_nil_r. repeat split; auto.
  - destruct (exec_facts E major o st) as (e1 & Hl1 & Ht1 & Hs1 & Hn1 & Hc1).
    destruct (IH (snd (exec E major o st))) as (e2 & Hl2 & Ht2 & Hs2 & Hn2 & Hc2).
    exists (e1 ++ e2). split; [|split; [|split; [|split]]].
    + now rewrite Hl2, Hl1, app_assoc.
    + rewrite targets_current_app, Ht1, <- Hs1, Ht2. reflexivity.
    + now rewrite last_spawned_app, <- Hs1.
    + rewrite spawned_with_app, length_app, Hn1, Hn2.
      symmetry. apply count_reopen_cons.
    + intros Hcount Hclosed. rewrite count_reopen_cons in Hcount.
      assert (Hne : o <> OpReopen).
      { intros ->. simpl in Hcount. discriminate. }
      destruct (Hc1 Hne Hclosed) as [Ho Hw1].
      assert (Hrest : count_reopen ops = 0%nat) by lia.
      destruct (Hc2 Hrest Ho) as [Ho2 Hw2].
      split; [exact Ho2|]. now rewrite written_app, Hw1, Hw2.
Qed.

(** X13. Over any sequence of operations a process is spawned once for each
    [reopen], whether the spawn succeeds or not, and never by [say], [close]
    or [terminate]: there is no retry and no other place that spawns. *)
Theorem one_spawn_per_reopen (E : environment) (major : Z)
    (ops : list operation) (st : state) :
  length (spawned_with (new_events (log st) (log (run E major ops st))))
  = count_reopen ops.
Proof.
  destruct (run_facts E major ops st) as (evs & Hl & _ & _ & Hn & _).
  now rewrite Hl, new_events_app.
Qed.

(** X14. Over any sequence of operations every call, a write, a flush, a
    wait or a signal, is made on the process spawned last before it (the
    session's own at the start), and at the end the session refers to the
    process spawned last: a process that has been replaced is never touched
    again. *)
Theorem calls_target_current_process (E : environment) (major : Z)
    (ops : list operation) (st : state) :
  targets_current (sp (self st))
    (new_events (log st) (log (run E major ops st))) = true /\
  sp (self (run E major ops st))
  = last_spawned (sp (self st)) (new_events (log st) (log (run E major ops st))).
Proof.
  destruct (run_facts E major ops st) as (evs & Hl & Ht & Hs & _).
  rewrite Hl, new_events_app. auto.
Qed.

(** X15. Only [reopen] opens a session again: from a closed session, a
    sequence of operations without [reopen] leaves it closed and writes
    nothing to any process. *)
Theorem closed_until_reopen (E : environment) (major : Z)
    (ops : list operation) (st : state) :
  count_reopen ops = 0%nat ->
  open (self st) = false ->
  open (self (run E major ops st)) = false /\
  written (new_events (log st) (log (run E major ops st))) = [].
Proof.
  intros Hcount Hclosed.
  destruct (run_facts E major ops st) as (evs & Hl & _ & _ & _ & Hc).
  rewrite Hl, new_events_app. now apply Hc.
Qed.

Lemma closed_until_reopen_witness :
  open (self (run obliging 3 [OpSay (PyStr "a"); OpClose; OpTerminate;
                               OpSay (PyFile "b")] closed_session)) = false /\
  written (new_events (log closed_session)
             (log (run obliging 3 [OpSay (PyStr "a"); OpClose; OpTerminate;
                                   OpSay (PyFile "b")] closed_session))) = [].
Proof.
  apply (closed_until_reopen obliging 3
           [OpSay (PyStr "a"); OpClose; OpTerminate; OpSay (PyFile "b")]
           closed_session); reflexivity.
Defined.

Example session_life :
  written (new_events [] (log (run obliging 3
     [OpSay (PyStr " one "); OpReopen; OpSay (PyFile "two"); OpClose;
      OpSay (PyStr "three")]
     {| self := {| args := ["espeak"]; sp := 0%nat; open := true |}; log := [] |})))
  = [("one" ++ newline)%string; ("two" ++ newline)%string].
Proof. reflexivity. Qed.

(** X16. [say] never changes the attributes, whatever it is given and
    however its calls end: after a write or a flush that raised, the session
    is still marked open and still refers to the same process. *)
Theorem say_keeps_attributes (E : environment) (major : Z) (st : state)
    (x : pyobj) :
  self (snd (say E major x st)) = self st.
Proof.
  destruct (say_effect E major st x) as (evs & Hs & _).
  now rewrite Hs.
Qed.

Lemma build_args_head (pe : string -> bool) (c : config) :
  hd_error (build_args pe c) = Some ESPEAKCMD.
Proof. now rewrite build_args_entries. Qed.

(** X17. A session never launches anything but the program [espeak]: from
    [__init__] on and through any sequence of operations, every [Popen] call
    is made with a list whose first item is the program name, whatever the
    strings given for [voice], [path] and [punct]. *)
Theorem only_espeak_is_launched (E : environment) (major : Z) (c : config)
    (l : list event) (s : eSpeak) (ops : list operation) :
  fst (init E c l) = Return s ->
  Forall (fun argv => hd_error argv = Some ESPEAKCMD)
    (spawned_with
       (new_events l
          (log (run E major ops {| self := s; log := snd (init E c l) |})))).
Proof.
  intros Hinit.
  set (st := {| self := s; log := snd (init E c l) |}).
  assert (Hargs : args (self st) = build_args (path_exists E) c).
  { unfold st. cbn [self]. unfold init in Hinit.
    destruct (popen E l _); [|discriminate].
    injection Hinit as <-. reflexivity. }
  assert (Hlog : log st
                 = l ++ [EvPopen (build_args (path_exists E) c)
                           (popen E l (build_args (path_exists E) c))]).
  { unfold st, init. cbn [log]. destruct (popen E l _); reflexivity. }
  destruct (run_effect E major ops st) as (evs & Hl & _ & Hs).
  rewrite Hl, Hlog, <- app_assoc, new_events_app, spawned_with_app.
  apply Forall_app. split.
  - simpl. constructor; [apply build_args_head | constructor].
  - rewrite Hargs in Hs. eapply Forall_impl; [|exact Hs].
    intros argv ->. apply build_args_head.
Qed.

Lemma only_espeak_is_launched_witness :
  fst (init obliging default_config []) = Return (self fresh_session) /\
  Forall (fun argv => hd_error argv = Some ESPEAKCMD)
    (spawned_with
       (new_events []
          (log (run obliging 3 [OpSay (PyStr "hi"); OpReopen; OpReopen]
                  {| self := self fresh_session;
                     log := snd (init obliging default_config []) |})))).
Proof.
  split; [reflexivity|].
  apply (only_espeak_is_launched obliging 3 default_config []
           (self fresh_session) [OpSay (PyStr "hi"); OpReopen; OpReopen]).
  reflexivity.
Defined.
